(** * 7fish storefront: notification manager, offline request queue, helpers

    A shallow embedding of the stateful core of the storefront scripts:
    - [Utils.parseJSON], [Utils.stringifyJSON] and [Utils.storage];
    - [API.withRetry];
    - the [Notifications] class (live collection, sequential queue, timers);
    - the offline request queue of the [API] class ([request],
      [queueRequest], [processQueue], the online/offline handlers).

    JavaScript runs these on a single event loop.  A synchronous stretch of
    code is one Rocq function on an explicit state; an [await] or a timer
    splits the code into the part before it and a continuation that a later
    event resumes. *)

From Stdlib Require Import ZArith Lia Ascii DecimalString DecimalPos DecimalZ Sorted.
From stdpp Require Import base option list strings gmap.

Local Open Scope string_scope.
Local Open Scope Z_scope.
Local Open Scope list_scope.

(** ** JavaScript values that cross the modelled interfaces *)

(** An [Error] instance as far as the code inspects it: its constructor
    name, [message], and the [status] property that [API.handleError]
    attaches (absent on every other error). *)
Record JsError := mkError {
  err_name : string;
  err_message : string;
  err_status : option Z
}.

Global Instance JsError_eq_dec : EqDecision JsError.
Proof. solve_decision. Defined.

(** What a [throw] statement can carry here: an error object, or
    [undefined] (an unassigned [let] variable). *)
Inductive Thrown :=
| ThrownError (e : JsError)
| ThrownUndefined.

Global Instance Thrown_eq_dec : EqDecision Thrown.
Proof. solve_decision. Defined.

(** Completion of a synchronous stretch of code. *)
Inductive Completion (A : Type) :=
| Normal (a : A)
| Throw (e : Thrown).
Arguments Normal {A} a.
Arguments Throw {A} e.

(** [try { body } catch (e) { handler(e) }] *)
Definition try_catch {A} (body : Completion A) (handler : Thrown -> Completion A)
  : Completion A :=
  match body with
  | Normal a => Normal a
  | Throw e => handler e
  end.

Definition bindC {A B} (c : Completion A) (k : A -> Completion B) : Completion B :=
  match c with
  | Normal a => k a
  | Throw e => Throw e
  end.

Definition new_Error (msg : string) : JsError := mkError "Error" msg None.

(** [undefined.m(...)]: property access on an undefined receiver. *)
Definition TypeError_undefined (prop : string) : JsError :=
  mkError "TypeError"
    ("Cannot read properties of undefined (reading '" +:+ prop +:+ "')") None.

(** ** Utils: safe JSON and local-storage accessors (part_000, 291-352) *)

Module Utils.
Section Accessors.

(** The host: [JSON.parse], [JSON.stringify] and [localStorage].  They
    are arbitrary, and any of their calls may throw (quota exceeded,
    storage disabled, syntax error, circular structure). *)
Context {Value Store : Type}.
Variable JSON_parse : string -> Completion Value.
(** [JSON.stringify] yields [undefined] ([None]) for [undefined] and
    functions. *)
Variable JSON_stringify : Value -> Completion (option string).
Variable getItem : Store -> string -> Completion (option string).
Variable setItem : Store -> string -> string -> Completion Store.
Variable removeItem : Store -> string -> Completion Store.
Variable clearItems : Store -> Completion Store.

(** [parseJSON(jsonString, fallback = null)] *)
Definition parseJSON (jsonString : string) (fallback : Value) : Completion Value :=
  try_catch (JSON_parse jsonString) (fun _ => Normal fallback).

(** [stringifyJSON(obj, fallback = '{}')]; the result is a string or
    [undefined]. *)
Definition stringifyJSON (obj : Value) (fallback : string)
  : Completion (option string) :=
  try_catch (JSON_stringify obj) (fun _ => Normal (Some fallback)).

(** Conversion of the argument of [setItem] to a string. *)
Definition to_DOMString (o : option string) : string :=
  match o with Some s => s | None => "undefined" end.

(** Truthiness of the result of [getItem]: [null] and the empty string
    are falsy. *)
Definition item_truthy (item : option string) : bool :=
  match item with
  | Some s => negb (String.eqb s "")
  | None => false
  end.

(** [storage.set(key, value)] *)
Definition storage_set (st : Store) (key : string) (value : Value)
  : Completion (Store * bool) :=
  try_catch
    (bindC (stringifyJSON value "{}") (fun s =>
     bindC (setItem st key (to_DOMString s)) (fun st' =>
     Normal (st', true))))
    (fun _ => Normal (st, false)).

(** [storage.get(key, fallback = null)] *)
Definition storage_get (st : Store) (key : string) (fallback : Value)
  : Completion Value :=
  try_catch
    (bindC (getItem st key) (fun item =>
     if item_truthy item
     then parseJSON (default "" item) fallback
     else Normal fallback))
    (fun _ => Normal fallback).

(** [storage.remove(key)] *)
Definition storage_remove (st : Store) (key : string) : Completion (Store * bool) :=
  try_catch
    (bindC (removeItem st key) (fun st' => Normal (st', true)))
    (fun _ => Normal (st, false)).

(** [storage.clear()] *)
Definition storage_clear (st : Store) : Completion (Store * bool) :=
  try_catch
    (bindC (clearItems st) (fun st' => Normal (st', true)))
    (fun _ => Normal (st, false)).

End Accessors.

(** A concrete host used to run the accessors: a map of items, a switch
    that makes every access throw (storage disabled), and a capacity in
    characters per value. *)
Record MemStore := {
  ms_items : gmap string string;
  ms_disabled : bool;
  ms_capacity : nat
}.

Definition SecurityError : JsError :=
  mkError "SecurityError" "The operation is insecure." None.
Definition QuotaExceededError : JsError :=
  mkError "QuotaExceededError" "The quota has been exceeded." None.
Definition SyntaxError : JsError :=
  mkError "SyntaxError" "Unexpected token" None.

Definition ms_getItem (st : MemStore) (k : string) : Completion (option string) :=
  if ms_disabled st then Throw (ThrownError SecurityError)
  else Normal (ms_items st !! k).

Definition ms_setItem (st : MemStore) (k v : string) : Completion MemStore :=
  if ms_disabled st then Throw (ThrownError SecurityError)
  else if (ms_capacity st <? String.length v)%nat
       then Throw (ThrownError QuotaExceededError)
       else Normal {| ms_items := <[k := v]> (ms_items st);
                      ms_disabled := ms_disabled st;
                      ms_capacity := ms_capacity st |}.

Definition ms_removeItem (st : MemStore) (k : string) : Completion MemStore :=
  if ms_disabled st then Throw (ThrownError SecurityError)
  else Normal {| ms_items := delete k (ms_items st);
                 ms_disabled := ms_disabled st;
                 ms_capacity := ms_capacity st |}.

(** A toy JSON domain for running the accessors: the only well-formed
    documents are ["null"], ["true"] and ["false"]. *)
Inductive ToyJson := JNull | JBool (b : bool) | JUndefined.

Definition toy_parse (s : string) : Completion ToyJson :=
  if String.eqb s "null" then Normal JNull
  else if String.eqb s "true" then Normal (JBool true)
  else if String.eqb s "false" then Normal (JBool false)
  else Throw (ThrownError SyntaxError).

Definition toy_stringify (v : ToyJson) : Completion (option string) :=
  match v with
  | JNull => Normal (Some "null")
  | JBool true => Normal (Some "true")
  | JBool false => Normal (Some "false")
  | JUndefined => Normal None
  end.

End Utils.

(** ** API.withRetry (notifications.js, 881-904) *)

Module Retry.

(** What an observer of [withRetry] sees: invocations of the operation and
    the waits [setTimeout(resolve, ms)] between them. *)
Inductive Effect :=
| Call
| Sleep (ms : Z).

Global Instance Effect_eq_dec : EqDecision Effect.
Proof. solve_decision. Defined.


Section WithRetry.

(** The operation [fn]: an effectful thunk, given by its effect on some
    state of its own and the completion of the promise it returns. *)
Context {S Value : Type}.
Variable fn : S -> S * Completion Value.



End WithRetry.


Definition calls (tr : list Effect) : nat :=
  length (filter (fun e => e = Call) tr).



End Retry.

(** ** The Notifications class (notifications.js, 5-419) *)

Module Notifications.

(** The [options] argument of [show]; an absent property is [None]. *)
Record Options := mkOptions {
  opt_duration : option Z;
  opt_persistent : option bool;
  opt_action : option string
}.

Definition no_options : Options := mkOptions None None None.

(** The object literal built by [show]. *)
Record Notification := mkNotification {
  n_id : string;
  n_message : string;
  n_type : string;
  n_timestamp : Z;
  n_duration : Z;
  n_persistent : bool;
  n_action : option string
}.

Global Instance Options_eq_dec : EqDecision Options.
Proof. solve_decision. Defined.
Global Instance Notification_eq_dec : EqDecision Notification.
Proof. solve_decision. Defined.

(** Callbacks handed to [setInterval] and [setTimeout] that touch the
    manager's data.  (The two timers that only toggle a CSS class or
    detach a DOM node are left out: nothing reads the DOM back into
    [this.notifications], [this.queue] or [this.isProcessing].) *)
Inductive Callback :=
| CbSweep                                 (* () => this.cleanupExpired(), every 1000ms *)
| CbRemove (id : string)                  (* () => this.remove(notification.id) *)
| CbQueueNext (resolve : nat) (id : string). (* () => { resolve(notificationId); this.processQueue(); } *)

Record Timer := mkTimer { due : Z; callback : Callback }.

(** An entry [{ message, type, options, resolve }] of [this.queue];
    [resolve] is the resolving function of the promise that [showQueued]
    returned, named by the number of that promise. *)
Record QueueEntry := mkEntry {
  q_message : string;
  q_type : string;
  q_options : Options;
  q_resolve : nat
}.

(** What the manager does to the outside, with the time it happens. *)
Inductive Obs :=
| Generated (rnd : string)                  (* generateId() drew this random suffix *)
| Rendered (n : Notification)               (* render(notification) *)
| Dequeued (resolve : nat) (n : Notification) (* processQueue() displayed the head entry *)
| Resolved (resolve : nat) (id : string).   (* resolve(notificationId) *)

Record State := mkState {
  notifications : list Notification;   (* this.notifications *)
  queue : list QueueEntry;             (* this.queue *)
  isProcessing : bool;                 (* this.isProcessing *)
  timers : list Timer;                 (* pending timers, in registration order *)
  now : Z;                             (* Date.now() *)
  next_resolve : nat;                  (* promises created by showQueued so far *)
  log : list (Z * Obs)                 (* history of outside effects, oldest first *)
}.

Definition set_notifications (l : list Notification) (st : State) : State :=
  mkState l (queue st) (isProcessing st) (timers st) (now st) (next_resolve st) (log st).
Definition set_queue (q : list QueueEntry) (st : State) : State :=
  mkState (notifications st) q (isProcessing st) (timers st) (now st) (next_resolve st) (log st).
Definition set_isProcessing (b : bool) (st : State) : State :=
  mkState (notifications st) (queue st) b (timers st) (now st) (next_resolve st) (log st).
Definition set_timers (t : list Timer) (st : State) : State :=
  mkState (notifications st) (queue st) (isProcessing st) t (now st) (next_resolve st) (log st).
Definition set_now (t : Z) (st : State) : State :=
  mkState (notifications st) (queue st) (isProcessing st) (timers st) t (next_resolve st) (log st).
Definition set_next_resolve (k : nat) (st : State) : State :=
  mkState (notifications st) (queue st) (isProcessing st) (timers st) (now st) k (log st).
Definition emit (o : Obs) (st : State) : State :=
  mkState (notifications st) (queue st) (isProcessing st) (timers st) (now st)
          (next_resolve st) (log st ++ [(now st, o)]).

(** [setTimeout(cb, delay)]: a negative delay counts as zero. *)
Definition setTimeout (cb : Callback) (delay : Z) (st : State) : State :=
  set_timers (timers st ++ [mkTimer (now st + Z.max 0 delay) cb]) st.

(** Decimal rendering of [Date.now()] by string concatenation. *)
Definition decimal (z : Z) : string :=
  DecimalString.NilZero.string_of_int (Z.to_int z).

(** [generateId()]; [rnd] stands for
    [Math.random().toString(36).substr(2, 9)]. *)
Definition generateId (now : Z) (rnd : string) : string :=
  "notification-" +:+ decimal now +:+ "-" +:+ rnd.

(** [getDefaultDuration(type)]: [durations[type] || 3000] *)
Definition getDefaultDuration (type : string) : Z :=
  if String.eqb type "success" then 3000
  else if String.eqb type "error" then 5000
  else if String.eqb type "warning" then 4000
  else if String.eqb type "info" then 3000
  else 3000.

(** [x || d] on an optional number: absent and [0] are falsy. *)
Definition or_number (x : option Z) (d : Z) : Z :=
  match x with
  | Some v => if v =? 0 then d else v
  | None => d
  end.

(** [x || false] *)
Definition or_false (x : option bool) : bool := default false x.

(** [x || null] on an optional string: absent and the empty string are
    falsy. *)
Definition or_null (x : option string) : option string :=
  match x with
  | Some s => if String.eqb s "" then None else Some s
  | None => None
  end.

(** The object literal at the head of [show]. *)
Definition make_notification (message type : string) (options : Options)
    (rnd : string) (now : Z) : Notification :=
  {| n_id := generateId now rnd;
     n_message := message;
     n_type := type;
     n_timestamp := now;
     n_duration := or_number (opt_duration options) (getDefaultDuration type);
     n_persistent := or_false (opt_persistent options);
     n_action := or_null (opt_action options) |}.

(** [show(message, type, options)]; returns the new state and the id. *)
Definition show (message type : string) (options : Options) (rnd : string)
    (st : State) : State * string :=
  let notification := make_notification message type options rnd (now st) in
  let st := emit (Generated rnd) st in
  let st := set_notifications (notifications st ++ [notification]) st in
  let st := emit (Rendered notification) st in
  let st :=
    if negb (n_persistent notification)
    then setTimeout (CbRemove (n_id notification)) (n_duration notification) st
    else st in
  (st, n_id notification).

(** [remove(id)] *)
Definition remove (id : string) (st : State) : State :=
  match List.find (fun n => String.eqb (n_id n) id) (notifications st) with
  | None => st
  | Some _ => set_notifications (filter (fun n => n_id n <> id) (notifications st)) st
  end.

(** [clear()]: [forEach] walks the array that was current when it started;
    [remove] replaces [this.notifications] and never mutates that array. *)
Definition clear (st : State) : State :=
  fold_left (fun st n => remove (n_id n) st) (notifications st) st.

(** [cleanupExpired()] *)
Definition cleanupExpired (st : State) : State :=
  let now := now st in
  fold_left
    (fun st notification =>
       if negb (n_persistent notification)
          && (n_duration notification <=? now - n_timestamp notification)
       then remove (n_id notification) st
       else st)
    (notifications st) st.

(** The typed wrappers. *)
Definition success (message : string) (options : Options) := show message "success" options.
Definition error (message : string) (options : Options) := show message "error" options.
Definition warning (message : string) (options : Options) := show message "warning" options.
Definition info (message : string) (options : Options) := show message "info" options.

(** [processQueue()] of the sequential queue. *)
Definition processQueue (rnd : string) (st : State) : State :=
  match queue st with
  | [] => set_isProcessing false st
  | entry :: rest =>
      let st := set_isProcessing true st in
      let st := set_queue rest st in
      let '(st, notificationId) :=
        show (q_message entry) (q_type entry) (q_options entry) rnd st in
      let st :=
        emit (Dequeued (q_resolve entry)
                (make_notification (q_message entry) (q_type entry)
                   (q_options entry) rnd (now st))) st in
      let timeout :=
        or_number (opt_duration (q_options entry)) (getDefaultDuration (q_type entry)) in
      setTimeout (CbQueueNext (q_resolve entry) notificationId) (timeout + 300) st
  end.

(** [showQueued(message, type, options)]; returns the new state and the
    number of the promise handed to the caller. *)
Definition showQueued (message type : string) (options : Options) (rnd : string)
    (st : State) : State * nat :=
  let resolve := next_resolve st in
  let st := set_next_resolve (Datatypes.S resolve) st in
  let st := set_queue (queue st ++ [mkEntry message type options resolve]) st in
  let st := if negb (isProcessing st) then processQueue rnd st else st in
  (st, resolve).

(** The constructor: an empty collection, and the sweep armed by
    [bindEvents]. *)
Definition new (t0 : Z) : State :=
  setTimeout CbSweep 1000 (mkState [] [] false [] t0 0 []).

(** *** The event loop *)

(** The first pending timer among those with the smallest due time. *)
Fixpoint earliest (l : list Timer) : option Timer :=
  match l with
  | [] => None
  | t :: l' =>
      match earliest l' with
      | Some t' => if due t' <? due t then Some t' else Some t
      | None => Some t
      end
  end.

Global Instance Callback_eq_dec : EqDecision Callback.
Proof. solve_decision. Defined.
Global Instance Timer_eq_dec : EqDecision Timer.
Proof. solve_decision. Defined.

(** Drop the first occurrence of a timer. *)
Fixpoint drop_timer (t : Timer) (l : list Timer) : list Timer :=
  match l with
  | [] => []
  | t' :: l' => if decide (t' = t) then l' else t' :: drop_timer t l'
  end.

(** Run the callback of timer [t]; an interval re-arms itself. *)
Definition run_callback (t : Timer) (rnd : string) (st : State) : State :=
  match callback t with
  | CbSweep => setTimeout CbSweep 1000 (cleanupExpired st)
  | CbRemove id => remove id st
  | CbQueueNext resolve id => processQueue rnd (emit (Resolved resolve id) st)
  end.

(** What the event loop can do next.  [rnd] is the random suffix that
    [generateId] draws if the event leads to a [show]. *)
Inductive Event :=
| EShow (message type : string) (options : Options) (rnd : string)
| ERemove (id : string)
| EClear
| EShowQueued (message type : string) (options : Options) (rnd : string)
| ETick (t : Z)          (* the clock reaches t *)
| EFire (rnd : string).  (* the earliest pending timer fires *)

(** Timers are punctual: the clock cannot pass a pending timer, and a
    timer fires once its time has come. *)
Definition enabled (ev : Event) (st : State) : bool :=
  match ev with
  | ETick t => (now st <=? t) && forallb (fun tm => t <=? due tm) (timers st)
  | EFire _ =>
      match earliest (timers st) with
      | Some tm => due tm <=? now st
      | None => false
      end
  | _ => true
  end.

Definition exec (ev : Event) (st : State) : State :=
  match ev with
  | EShow message type options rnd => fst (show message type options rnd st)
  | ERemove id => remove id st
  | EClear => clear st
  | EShowQueued message type options rnd => fst (showQueued message type options rnd st)
  | ETick t => set_now t st
  | EFire rnd =>
      match earliest (timers st) with
      | Some tm => run_callback tm rnd (set_timers (drop_timer tm (timers st)) st)
      | None => st
      end
  end.

Fixpoint run (evs : list Event) (st : State) : option State :=
  match evs with
  | [] => Some st
  | ev :: evs' => if enabled ev st then run evs' (exec ev st) else None
  end.

(** Projections of the history. *)
Definition draws (st : State) : list (Z * string) :=
  omap (fun e => match e.2 with Generated r => Some (e.1, r) | _ => None end) (log st).
Definition rendered (st : State) : list Notification :=
  omap (fun e => match e.2 with Rendered n => Some n | _ => None end) (log st).

End Notifications.

(** ** The API class: requests and the offline queue (notifications.js, 426-684) *)

Module API.

(** The [options] argument of [request], and the [config] handed to
    [fetch]; an absent property is [None]. *)
Record Config := mkConfig {
  cfg_method : option string;
  cfg_body : option string;
  cfg_headers : option (list (string * string));
  cfg_queueOffline : option bool
}.

Global Instance Config_eq_dec : EqDecision Config.
Proof. solve_decision. Defined.

(** The properties of a parsed JSON body that the client reads; the rest
    of the document stays opaque in [doc_raw]. *)
Record JsonDoc := mkDoc {
  doc_message : option string;
  doc_error : option string;
  doc_retry_after : option Z;
  doc_raw : string
}.

Global Instance JsonDoc_eq_dec : EqDecision JsonDoc.
Proof. solve_decision. Defined.

(** What [request] resolves with: [response.json()] or [response.text()]. *)
Inductive Value :=
| JsonValue (d : JsonDoc)
| TextValue (s : string).

Global Instance Value_eq_dec : EqDecision Value.
Proof. solve_decision. Defined.

(** How a promise settles. *)
Inductive Settlement :=
| Fulfilled (v : Value)
| Rejected (e : Thrown).

Global Instance Settlement_eq_dec : EqDecision Settlement.
Proof. solve_decision. Defined.

(** A response as the client reads it; [resp_json] and [resp_text] are
    what [response.json()] and [response.text()] settle with. *)
Record HttpResponse := mkResponse {
  resp_status : Z;
  resp_statusText : string;
  resp_contentType : option string;
  resp_json : Completion JsonDoc;
  resp_text : Completion string
}.

(** [response.ok] *)
Definition resp_ok (r : HttpResponse) : bool :=
  (200 <=? resp_status r) && (resp_status r <=? 299).

(** How [fetch] settles: it rejects on a network failure and fulfils with
    a response otherwise, whatever the status. *)
Inductive FetchOutcome :=
| NetworkFailure (e : JsError)
| Response (r : HttpResponse).

(** Who consumes the promise returned by one call of [request]: an outside
    caller holding promise number [p], or [processQueue] suspended at
    [await this.request(item.endpoint, item.config)] with the entries of
    its snapshot that come after [item].

    An entry of [this.requestQueue] carries the [resolve]/[reject] pair of
    the promise made by [queueRequest].  The call of [request] that made
    the entry returned that promise, so settling it hands the result to
    that call's consumer: [resolver] is this consumer, or [None] once the
    promise is already settled and the pair does nothing. *)
Inductive Waiter :=
| WCaller (p : nat)
| WDrain (item : QueueItem) (rest : list QueueItem)
with QueueItem :=
| mkItem (endpoint : string) (config : Config) (timestamp : Z)
         (resolver : option Waiter).

Definition q_endpoint (i : QueueItem) : string := let 'mkItem e _ _ _ := i in e.
Definition q_config (i : QueueItem) : Config := let 'mkItem _ c _ _ := i in c.
Definition q_timestamp (i : QueueItem) : Z := let 'mkItem _ _ t _ := i in t.
Definition q_resolver (i : QueueItem) : option Waiter := let 'mkItem _ _ _ r := i in r.

(** A [fetch] that has not settled yet, with the suspended call of
    [request] that awaits it. *)
Record Inflight := mkInflight {
  fl_endpoint : string;
  fl_options : Config;
  fl_config : Config;
  fl_waiter : Waiter
}.

(** What the client does to the outside. *)
Inductive Obs :=
| ORequest (endpoint : string) (options : Config)  (* request(endpoint, options) is entered *)
| OFetch (fetch : nat) (url : string)              (* fetch(url, config) *)
| OSettle (p : nat) (s : Settlement).              (* an outside caller's promise settles *)

Global Instance Obs_eq_dec : EqDecision Obs.
Proof. solve_decision. Defined.

Record State := mkState {
  isOnline : bool;                          (* this.isOnline *)
  requestQueue : list QueueItem;            (* this.requestQueue *)
  authToken : option string;                (* this.authToken *)
  notifications : option (list (string * string));
    (* this.notifications: the class never assigns it, so it is undefined
       ([None]) unless outside code attaches a manager; an attached manager
       is seen through the calls (level, message) it received *)
  Notifications_defined : bool;             (* typeof Notifications !== 'undefined' *)
  redirect_scheduled : bool;                (* the timer that sets window.location.href *)
  now : Z;                                  (* Date.now() *)
  inflight : gmap nat Inflight;             (* fetches awaiting the network *)
  next_fetch : nat;
  settled : gmap nat Settlement;            (* outside promises already settled *)
  next_promise : nat;
  log : list Obs
}.

Definition set_isOnline (b : bool) (st : State) : State :=
  mkState b (requestQueue st) (authToken st) (notifications st)
    (Notifications_defined st) (redirect_scheduled st) (now st) (inflight st)
    (next_fetch st) (settled st) (next_promise st) (log st).
Definition set_requestQueue (q : list QueueItem) (st : State) : State :=
  mkState (isOnline st) q (authToken st) (notifications st)
    (Notifications_defined st) (redirect_scheduled st) (now st) (inflight st)
    (next_fetch st) (settled st) (next_promise st) (log st).
Definition set_authToken (t : option string) (st : State) : State :=
  mkState (isOnline st) (requestQueue st) t (notifications st)
    (Notifications_defined st) (redirect_scheduled st) (now st) (inflight st)
    (next_fetch st) (settled st) (next_promise st) (log st).
Definition set_notifications (n : option (list (string * string))) (st : State) : State :=
  mkState (isOnline st) (requestQueue st) (authToken st) n
    (Notifications_defined st) (redirect_scheduled st) (now st) (inflight st)
    (next_fetch st) (settled st) (next_promise st) (log st).
Definition set_redirect_scheduled (b : bool) (st : State) : State :=
  mkState (isOnline st) (requestQueue st) (authToken st) (notifications st)
    (Notifications_defined st) b (now st) (inflight st)
    (next_fetch st) (settled st) (next_promise st) (log st).
Definition set_now (t : Z) (st : State) : State :=
  mkState (isOnline st) (requestQueue st) (authToken st) (notifications st)
    (Notifications_defined st) (redirect_scheduled st) t (inflight st)
    (next_fetch st) (settled st) (next_promise st) (log st).
Definition set_inflight (m : gmap nat Inflight) (st : State) : State :=
  mkState (isOnline st) (requestQueue st) (authToken st) (notifications st)
    (Notifications_defined st) (redirect_scheduled st) (now st) m
    (next_fetch st) (settled st) (next_promise st) (log st).
Definition set_next_fetch (k : nat) (st : State) : State :=
  mkState (isOnline st) (requestQueue st) (authToken st) (notifications st)
    (Notifications_defined st) (redirect_scheduled st) (now st) (inflight st)
    k (settled st) (next_promise st) (log st).
Definition set_settled (m : gmap nat Settlement) (st : State) : State :=
  mkState (isOnline st) (requestQueue st) (authToken st) (notifications st)
    (Notifications_defined st) (redirect_scheduled st) (now st) (inflight st)
    (next_fetch st) m (next_promise st) (log st).
Definition set_next_promise (k : nat) (st : State) : State :=
  mkState (isOnline st) (requestQueue st) (authToken st) (notifications st)
    (Notifications_defined st) (redirect_scheduled st) (now st) (inflight st)
    (next_fetch st) (settled st) k (log st).
Definition emit (o : Obs) (st : State) : State :=
  mkState (isOnline st) (requestQueue st) (authToken st) (notifications st)
    (Notifications_defined st) (redirect_scheduled st) (now st) (inflight st)
    (next_fetch st) (settled st) (next_promise st) (log st ++ [o]).

(** The constructor: [navigator.onLine] is read once, the token comes from
    storage, and [this.notifications] is left unassigned. *)
Definition new (onLine : bool) (storedToken : option string)
    (Notifications_loaded : bool) (t0 : Z) : State :=
  mkState onLine [] storedToken None Notifications_loaded false t0 ∅ 0 ∅ 0 [].

Definition baseURL : string := "/api".

Definition defaultHeaders : list (string * string) :=
  [("Content-Type", "application/json"); ("X-Requested-With", "XMLHttpRequest")].

(** [headers[k] = v] on an object seen as an ordered list of properties. *)
Definition set_header (k v : string) (h : list (string * string))
  : list (string * string) :=
  if existsb (fun kv => String.eqb kv.1 k) h
  then map (fun kv => if String.eqb kv.1 k then (k, v) else kv) h
  else h ++ [(k, v)].

(** Truthiness of [this.authToken]: [null] and the empty string are falsy. *)
Definition token_of (st : State) : option string :=
  match authToken st with
  | Some t => if String.eqb t "" then None else Some t
  | None => None
  end.

Definition with_authorization (st : State) (h : list (string * string))
  : list (string * string) :=
  match token_of st with
  | Some t => set_header "Authorization" ("Bearer " +:+ t) h
  | None => h
  end.

(** [getAuthHeaders()] *)
Definition getAuthHeaders (st : State) : list (string * string) :=
  with_authorization st defaultHeaders.

(** [{ headers: this.getAuthHeaders(), ...options }] followed by the
    assignment of [config.headers['Authorization']]. *)
Definition build_config (st : State) (options : Config) : Config :=
  let headers := default (getAuthHeaders st) (cfg_headers options) in
  mkConfig (cfg_method options) (cfg_body options)
           (Some (with_authorization st headers)) (cfg_queueOffline options).

(** [endpoint.startsWith('http') ? endpoint : `${this.baseURL}${endpoint}`] *)
Definition url_of (endpoint : string) : string :=
  if String.prefix "http" endpoint then endpoint else baseURL +:+ endpoint.

(** [s.includes(sub)] *)
Definition includes (sub s : string) : bool :=
  match String.index 0 sub s with Some _ => true | None => false end.

Definition is_json (contentType : option string) : bool :=
  match contentType with
  | Some ct => negb (String.eqb ct "") && includes "application/json" ct
  | None => false
  end.

(** [if (typeof Notifications !== 'undefined') this.notifications.<level>(msg)] *)
Definition notify (level msg : string) (st : State) : Completion State :=
  if Notifications_defined st then
    match notifications st with
    | None => Throw (ThrownError (TypeError_undefined level))
    | Some calls => Normal (set_notifications (Some (calls ++ [(level, msg)])) st)
    end
  else Normal st.

(** [setAuthToken(token)]; [Utils.storage] never throws, and the stored
    copy is read by the constructor only. *)
Definition setAuthToken (token : option string) (st : State) : State :=
  set_authToken token st.

(** [handleUnauthorized()] *)
Definition handleUnauthorized (st : State) : State * Completion unit :=
  let st := setAuthToken None st in
  match notify "warning" "Your session has expired. Please log in again." st with
  | Throw e => (st, Throw e)
  | Normal st => (set_redirect_scheduled true st, Normal ())
  end.

Definition notify_only (level msg : string) (st : State) : State * Completion unit :=
  match notify level msg st with
  | Throw e => (st, Throw e)
  | Normal st => (st, Normal ())
  end.

(** [handleForbidden()] *)
Definition handleForbidden (st : State) : State * Completion unit :=
  notify_only "error" "You don't have permission to perform this action." st.

(** [handleRateLimit(data)] *)
Definition handleRateLimit (data : option JsonDoc) (st : State) : State * Completion unit :=
  let retryAfter :=
    match data with
    | Some d => match doc_retry_after d with
                | Some v => if v =? 0 then 60 else v
                | None => 60
                end
    | None => 60
    end in
  notify_only "warning"
    ("Too many requests. Please wait " +:+ Notifications.decimal retryAfter +:+ " seconds.") st.

(** [handleServerError()] *)
Definition handleServerError (st : State) : State * Completion unit :=
  notify_only "error" "Server error. Please try again later." st.

(** [a || b] on optional strings. *)
Definition or_string (a : option string) (b : string) : string :=
  match a with
  | Some s => if String.eqb s "" then b else s
  | None => b
  end.

(** [handleError(response)]: the error it returns, or what it throws. *)
Definition handleError (response : HttpResponse) (st : State)
  : State * Completion JsError :=
  let errorMessage := "An error occurred" in
  let '(errorMessage, errorData) :=
    if is_json (resp_contentType response) then
      match resp_json response with
      | Normal d =>
          (or_string (doc_message d) (or_string (doc_error d) errorMessage), Some d)
      | Throw _ => (or_string (Some (resp_statusText response)) errorMessage, None)
      end
    else
      match resp_text response with
      | Normal t => (t, None)
      | Throw _ => (or_string (Some (resp_statusText response)) errorMessage, None)
      end in
  let error := mkError "Error" errorMessage (Some (resp_status response)) in
  let '(st, c) :=
    if resp_status response =? 401 then handleUnauthorized st
    else if resp_status response =? 403 then handleForbidden st
    else if resp_status response =? 429 then handleRateLimit errorData st
    else if resp_status response =? 500 then handleServerError st
    else (st, Normal ()) in
  match c with
  | Normal _ => (st, Normal error)
  | Throw e => (st, Throw e)
  end.

(** The [try] block of [request] from the point where [fetch] settles. *)
Definition request_try (outcome : FetchOutcome) (st : State)
  : State * Completion Value :=
  match outcome with
  | NetworkFailure e => (st, Throw (ThrownError e))
  | Response response =>
      if negb (resp_ok response) then
        match handleError response st with
        | (st, Normal error) => (st, Throw (ThrownError error))
        | (st, Throw e) => (st, Throw e)
        end
      else if is_json (resp_contentType response) then
        (st, match resp_json response with
             | Normal d => Normal (JsonValue d)
             | Throw e => Throw e
             end)
      else
        (st, match resp_text response with
             | Normal t => Normal (TextValue t)
             | Throw e => Throw e
             end)
  end.

(** An outside caller's promise settles (a settled promise stays as it is). *)
Definition settle_caller (p : nat) (s : Settlement) (st : State) : State :=
  match settled st !! p with
  | Some _ => st
  | None => emit (OSettle p s) (set_settled (<[p := s]> (settled st)) st)
  end.

(** The synchronous head of [request(endpoint, options)], up to
    [await fetch(url, config)]; [w] consumes the promise that the call
    returns. *)
Definition request_start (endpoint : string) (options : Config) (w : Waiter)
    (st : State) : State :=
  let st := emit (ORequest endpoint options) st in
  let url := url_of endpoint in
  let config := build_config st options in
  let fetch := next_fetch st in
  let st := set_next_fetch (S fetch) st in
  let st := emit (OFetch fetch url) st in
  set_inflight (<[fetch := mkInflight endpoint options config w]> (inflight st)) st.

(** [Date.now() - item.timestamp < 5 * 60 * 1000] *)
Definition fresh (now : Z) (item : QueueItem) : bool :=
  now - q_timestamp item <? 5 * 60 * 1000.

Definition expired : Settlement :=
  Rejected (ThrownError (new_Error "Request expired")).

(** A promise returned by a call of [request] settles with [s]: its
    consumer [w] goes on.  For [processQueue] suspended on [item] this is
    [item.resolve(result)] or, through its [catch], [item.reject(error)],
    followed by the rest of the [for] loop: an entry that is too old is
    rejected on the spot, the first one that is not makes the loop suspend
    again on a new call of [request]. *)
Fixpoint resume (w : Waiter) (s : Settlement) (st : State) {struct w} : State :=
  match w with
  | WCaller p => settle_caller p s st
  | WDrain item rest =>
      let st :=
        match item with
        | mkItem _ _ _ (Some w') => resume w' s st
        | mkItem _ _ _ None => st
        end in
      (fix loop (queue : list QueueItem) (st : State) {struct queue} : State :=
         match queue with
         | [] => st
         | item :: queue' =>
             if fresh (now st) item
             then request_start (q_endpoint item) (q_config item) (WDrain item queue') st
             else
               loop queue'
                 match item with
                 | mkItem _ _ _ (Some w') => resume w' expired st
                 | mkItem _ _ _ None => st
                 end
         end) rest st
  end.

(** [item.resolve(v)] / [item.reject(e)] *)
Definition settle_item (item : QueueItem) (s : Settlement) (st : State) : State :=
  match q_resolver item with
  | Some w => resume w s st
  | None => st
  end.

(** The [for (const item of queue)] loop of [processQueue], up to its
    first [await]. *)
Fixpoint drain_loop (queue : list QueueItem) (st : State) : State :=
  match queue with
  | [] => st
  | item :: queue' =>
      if fresh (now st) item
      then request_start (q_endpoint item) (q_config item) (WDrain item queue') st
      else drain_loop queue' (settle_item item expired st)
  end.

(** [queueRequest(endpoint, config)], called by the call of [request]
    whose consumer is [w].  The entry is pushed first; if the notification
    call then throws inside the promise executor, the new promise is
    rejected with that exception at once. *)
Definition queueRequest (endpoint : string) (config : Config) (w : Waiter)
    (st : State) : State :=
  match notify "info" "Request queued. Will retry when online." st with
  | Normal st' =>
      set_requestQueue
        (requestQueue st' ++ [mkItem endpoint config (now st') (Some w)]) st'
  | Throw e =>
      let st := set_requestQueue
                  (requestQueue st ++ [mkItem endpoint config (now st) None]) st in
      resume w (Rejected e) st
  end.

(** [request] from the point where [fetch] settles. *)
Definition request_finish (fl : Inflight) (outcome : FetchOutcome) (st : State)
  : State :=
  match request_try outcome st with
  | (st, Normal v) => resume (fl_waiter fl) (Fulfilled v) st
  | (st, Throw error) =>
      if negb (isOnline st)
         && negb (bool_decide (cfg_queueOffline (fl_options fl) = Some false))
      then queueRequest (fl_endpoint fl) (fl_config fl) (fl_waiter fl) st
      else resume (fl_waiter fl) (Rejected error) st
  end.

(** [processQueue()] *)
Definition processQueue (st : State) : State :=
  if negb (isOnline st) || bool_decide (requestQueue st = [])
  then st
  else
    let queue := requestQueue st in
    drain_loop queue (set_requestQueue [] st).

(** An exception that escapes an event listener is reported and dropped. *)
Definition swallow (c : Completion State) (st : State) : State :=
  match c with Normal st' => st' | Throw _ => st end.

(** The ['online'] listener. *)
Definition on_online (st : State) : State :=
  let st := set_isOnline true st in
  let st := processQueue st in
  swallow (notify "info" "You are back online" st) st.

(** The ['offline'] listener. *)
Definition on_offline (st : State) : State :=
  let st := set_isOnline false st in
  swallow (notify "warning" "You are offline. Some features may not work." st) st.

(** An outside caller calls [request(endpoint, options)] and gets promise
    number [p]. *)
Definition call_request (endpoint : string) (options : Config) (st : State)
  : State * nat :=
  let p := next_promise st in
  let st := set_next_promise (S p) st in
  (request_start endpoint options (WCaller p) st, p).

(** *** The event loop *)

Inductive Event :=
| ECall (endpoint : string) (options : Config)     (* request(endpoint, options) *)
| EFetchDone (fetch : nat) (outcome : FetchOutcome) (* the network settles a fetch *)
| EOnline                                          (* the platform goes OFFLINE -> ONLINE *)
| EOffline                                         (* the platform goes ONLINE -> OFFLINE *)
| ETick (t : Z).                                   (* the clock reaches t *)

(** The platform reports a change of connectivity only when there is one;
    the flag mirrors it from construction on. *)
Definition enabled (ev : Event) (st : State) : bool :=
  match ev with
  | ECall _ _ => true
  | EFetchDone f _ => bool_decide (is_Some (inflight st !! f))
  | EOnline => negb (isOnline st)
  | EOffline => isOnline st
  | ETick t => now st <=? t
  end.

Definition exec (ev : Event) (st : State) : State :=
  match ev with
  | ECall endpoint options => fst (call_request endpoint options st)
  | EFetchDone f outcome =>
      match inflight st !! f with
      | Some fl => request_finish fl outcome (set_inflight (delete f (inflight st)) st)
      | None => st
      end
  | EOnline => on_online st
  | EOffline => on_offline st
  | ETick t => set_now t st
  end.

Fixpoint run (evs : list Event) (st : State) : option State :=
  match evs with
  | [] => Some st
  | ev :: evs' => if enabled ev st then run evs' (exec ev st) else None
  end.

End API.

(** ** Notions used to state and prove the properties *)

(** A string without the character [-]. *)
Fixpoint no_dash (s : string) : Prop :=
  match s with
  | EmptyString => True
  | String c s' => c <> "-"%char /\ no_dash s'
  end.

Module NotificationsInv.
Import Notifications.

(** The timer that [show] arms for a notification that is not persistent. *)
Definition removal_timer (n : Notification) : Timer :=
  mkTimer (n_timestamp n + Z.max 0 (n_duration n)) (CbRemove (n_id n)).




Definition is_queue_timer (tm : Timer) : Prop :=
  match callback tm with CbQueueNext _ _ => True | _ => False end.

Global Instance is_queue_timer_dec tm : Decision (is_queue_timer tm).
Proof. unfold is_queue_timer. destruct (callback tm); apply _. Defined.

Definition queue_timers (st : State) : list Timer :=
  filter is_queue_timer (timers st).


(** Invariant of the live collection and its timers. *)
Record BasicInv (st : State) : Prop := {
  inv_clock : 0 <= now st;
  inv_draw_times : Forall (fun d => 0 <= d.1) (draws st);
  inv_ids : map n_id (rendered st) = map (fun d => generateId d.1 d.2) (draws st);
  inv_live : notifications st `sublist_of` rendered st;
  inv_due : Forall (fun tm => now st <= due tm) (timers st);
  inv_rm : forall n, n ∈ notifications st -> n_persistent n = false ->
             removal_timer n ∈ timers st;
  inv_cb : forall tm i, tm ∈ timers st -> callback tm = CbRemove i ->
             exists n, n ∈ rendered st /\ n_id n = i /\ n_persistent n = false
}.




(** The first sentence of the uniqueness invariant, read literally: after
    any run, the live collection has no two equal identifiers. *)
Definition unique_ids_always : Prop :=
  forall t0 evs st, 0 <= t0 -> run evs (new t0) = Some st ->
    NoDup (map n_id (notifications st)).


End NotificationsInv.

Module Drain.
Import API.

(** An entry whose promise is consumed by an outside caller, or is already
    settled: the entries that exist while no earlier pass is suspended. *)
Definition plain (item : QueueItem) : Prop :=
  match q_resolver item with
  | Some (WDrain _ _) => False
  | _ => True
  end.

Global Instance plain_dec item : Decision (plain item).
Proof. unfold plain. destruct (q_resolver item) as [[]|]; apply _. Defined.





(** Fetch numbers not handed out yet are not in flight. *)
Definition fetches_fresh (st : State) : Prop :=
  forall f, (next_fetch st <= f)%nat -> inflight st !! f = None.


End Drain.

(** Requests, failures and answers used to run the client. *)
Module Scenario.
Import API.

Definition post : Config := mkConfig (Some "POST") None None None.

Definition failed_to_fetch : JsError := mkError "TypeError" "Failed to fetch" None.



(** Three requests fail while offline, the last one 400 seconds after the
    first two. *)
Definition three_queued : list Event :=
  [ECall "/a" post; ECall "/b" post;
   EFetchDone 0 (NetworkFailure failed_to_fetch);
   EFetchDone 1 (NetworkFailure failed_to_fetch);
   ETick 400000; ECall "/c" post;
   EFetchDone 2 (NetworkFailure failed_to_fetch)].

End Scenario.

(** ** Further parts of the Notifications class (notifications.js, 245-418) *)

Module NotificationsMore.
Import Notifications.

(** [{ ...options, persistent: true }] *)
Definition with_persistent (options : Options) : Options :=
  mkOptions (opt_duration options) (Some true) (opt_action options).

(** [loading(message = 'Loading...', options = {})]; returns the new state
    and the identifier that the handle closes over. *)
Definition loading (message : option string) (options : Options) (rnd : string)
    (st : State) : State * string :=
  show (default "Loading..." message) "info" (with_persistent options) rnd st.

(** [close] of the handle returned by [loading] and [progress]. *)
Definition handle_close (notificationId : string) (st : State) : State :=
  remove notificationId st.

(** An element of the array given to [showMultiple], with the random
    suffix that its [show] draws. *)
Record Multiple := mkMultiple {
  mu_message : string;
  mu_type : option string;
  mu_options : option Options;
  mu_rnd : string
}.

(** [showMultiple(notifications)]; an absent [type] or [options] takes the
    default of [show]. *)
Definition showMultiple (l : list Multiple) (st : State) : State :=
  fold_left
    (fun st x =>
       fst (show (mu_message x) (default "info" (mu_type x))
              (default no_options (mu_options x)) (mu_rnd x) st))
    l st.

(** The notification that [showMultiple] builds for an element. *)
Definition multiple_notification (now : Z) (x : Multiple) : Notification :=
  make_notification (mu_message x) (default "info" (mu_type x))
    (default no_options (mu_options x)) (mu_rnd x) now.

Definition is_sweep (tm : Timer) : Prop := callback tm = CbSweep.

Global Instance is_sweep_dec tm : Decision (is_sweep tm).
Proof. unfold is_sweep. apply _. Defined.

End NotificationsMore.

(** ** Position and theme of the container (notifications.js, 319-332, 389-418) *)

Module Presentation.

(** The class list of the container, as the ordered set of tokens that
    [classList] shows. *)
Definition ClassList := list string.

Definition InvalidCharacterError : JsError :=
  mkError "InvalidCharacterError" "The token contains whitespace." None.
Definition SyntaxError : JsError :=
  mkError "SyntaxError" "The token is empty." None.

(** ASCII whitespace: tab, line feed, form feed, carriage return, space. *)
Definition is_whitespace (c : ascii) : bool :=
  let n := nat_of_ascii c in
  (n =? 9)%nat || (n =? 10)%nat || (n =? 12)%nat || (n =? 13)%nat || (n =? 32)%nat.

Fixpoint has_whitespace (s : string) : bool :=
  match s with
  | EmptyString => false
  | String c s' => is_whitespace c || has_whitespace s'
  end.

(** [classList.add(token)] *)
Definition classList_add (token : string) (cls : ClassList) : Completion ClassList :=
  if String.eqb token "" then Throw (ThrownError SyntaxError)
  else if has_whitespace token then Throw (ThrownError InvalidCharacterError)
  else if bool_decide (token ∈ cls) then Normal cls
  else Normal (cls ++ [token]).

(** [classList.remove(...tokens)] for valid tokens. *)
Definition classList_remove (tokens : list string) (cls : ClassList) : ClassList :=
  filter (fun c => c ∉ tokens) cls.

Definition positions : list string :=
  ["top-right"; "top-left"; "bottom-right"; "bottom-left"; "top-center";
   "bottom-center"].

(** [setPosition(position = 'top-right')]; assigning [className] replaces
    the whole class list. *)
Definition setPosition (position : option string) (cls : ClassList) : ClassList :=
  let position := default "top-right" position in
  if bool_decide (position ∈ positions)
  then ["notifications-container"; "position-" +:+ position]
  else cls.

(** [setTheme(theme = 'light')] *)
Definition setTheme (theme : option string) (cls : ClassList) : Completion ClassList :=
  let theme := default "light" theme in
  classList_add ("theme-" +:+ theme) (classList_remove ["theme-light"; "theme-dark"] cls).

(** The rest of [s] after the prefix [p], if [s] starts with [p]. *)
Fixpoint strip_prefix (p s : string) : option string :=
  match p, s with
  | EmptyString, _ => Some s
  | String a p', String b s' => if Ascii.eqb a b then strip_prefix p' s' else None
  | String _ _, EmptyString => None
  end.

(** [s.startsWith(p)] *)
Definition startsWith (p s : string) : bool :=
  match strip_prefix p s with Some _ => true | None => false end.

(** [s.replace(p, '')]: the first occurrence of [p] is cut out. *)
Fixpoint replace_first (p s : string) : string :=
  match strip_prefix p s with
  | Some rest => rest
  | None =>
      match s with
      | EmptyString => EmptyString
      | String c s' => String c (replace_first p s')
      end
  end.

(** [getCurrentPosition()] *)
Definition getCurrentPosition (cls : ClassList) : string :=
  match List.find (startsWith "position-") cls with
  | Some positionClass => replace_first "position-" positionClass
  | None => "top-right"
  end.

(** [getCurrentTheme()] *)
Definition getCurrentTheme (cls : ClassList) : string :=
  match List.find (startsWith "theme-") cls with
  | Some themeClass => replace_first "theme-" themeClass
  | None => "light"
  end.

(** The object returned by [exportSettings] and read by [importSettings]. *)
Record Settings := mkSettings {
  s_position : option string;
  s_theme : option string;
  s_maxNotifications : nat
}.

(** [exportSettings()] *)
Definition exportSettings (cls : ClassList)
    (notifications : list Notifications.Notification) : Settings :=
  mkSettings (Some (getCurrentPosition cls)) (Some (getCurrentTheme cls))
    (length notifications).

(** Truthiness of an optional string. *)
Definition truthy (x : option string) : bool :=
  match x with Some s => negb (String.eqb s "") | None => false end.

(** [importSettings(settings)] *)
Definition importSettings (settings : Settings) (cls : ClassList)
  : Completion ClassList :=
  let cls :=
    if truthy (s_position settings) then setPosition (s_position settings) cls
    else cls in
  if truthy (s_theme settings) then setTheme (s_theme settings) cls
  else Normal cls.

(** Every theme class of the list is one of the two built-in ones. *)
Definition only_builtin_themes (cls : ClassList) : Prop :=
  Forall (fun c => startsWith "theme-" c = true ->
                   c = "theme-light" \/ c = "theme-dark") cls.

End Presentation.

(** ** WebSocket reconnection (notifications.js, 906-970) *)

Module Reconnect.

Definition maxReconnectAttempts : nat := 5.

(** [attemptReconnect(url)] on the counter [wsReconnectAttempts]: the new
    counter, and the delay of the timer that reconnects, if one is set. *)
Definition attemptReconnect (wsReconnectAttempts : nat) : nat * option Z :=
  if (maxReconnectAttempts <=? wsReconnectAttempts)%nat
  then (wsReconnectAttempts, None)
  else
    let attempts := S wsReconnectAttempts in
    (attempts, Some (Z.min (1000 * 2 ^ Z.of_nat attempts) 30000)).

(** [ws.onopen]: the counter starts over. *)
Definition onopen (wsReconnectAttempts : nat) : nat := 0%nat.

(** The connection closes [n] times in a row without opening in between:
    the delays of the reconnections attempted. *)
Fixpoint closes (n : nat) (wsReconnectAttempts : nat) : nat * list Z :=
  match n with
  | O => (wsReconnectAttempts, [])
  | S n' =>
      match attemptReconnect wsReconnectAttempts with
      | (a, Some d) => let '(a', ds) := closes n' a in (a', d :: ds)
      | (a, None) => closes n' a
      end
  end.

End Reconnect.

(** ** Utils.formatRelativeTime (part_000, 68-93) *)

Module RelativeTime.

Definition intervals : list (string * Z) :=
  [("year", 31536000); ("month", 2592000); ("week", 604800); ("day", 86400);
   ("hour", 3600); ("minute", 60); ("second", 1)].

(** The [for] loop: the first interval that fits at least once, with its
    count. *)
Fixpoint first_interval (l : list (string * Z)) (diffInSeconds : Z)
  : option (Z * string) :=
  match l with
  | [] => None
  | (label, seconds) :: l' =>
      let count := diffInSeconds / seconds in
      if 1 <=? count then Some (count, label)
      else first_interval l' diffInSeconds
  end.

(** [formatRelativeTime(date)]; [now] and [date] are the two instants in
    milliseconds. *)
Definition formatRelativeTime (now date : Z) : string :=
  let diffInSeconds := (now - date) / 1000 in
  match first_interval intervals diffInSeconds with
  | Some (count, label) =>
      if count =? 1 then "1 " +:+ label +:+ " ago"
      else Notifications.decimal count +:+ " " +:+ label +:+ "s ago"
  | None => "Just now"
  end.

End RelativeTime.

(** ** Notions for further properties of the client *)

Module APIMore.
Import API.

(** [headers[k]] *)
Definition get_header (k : string) (h : list (string * string)) : option string :=
  snd <$> List.find (fun kv => String.eqb kv.1 k) h.

(** The buffer is in the order of its timestamps, none of them ahead of
    the clock. *)
Definition chronological (st : State) : Prop :=
  StronglySorted Z.le (q_timestamp <$> requestQueue st) /\
  Forall (fun item => q_timestamp item <= now st) (requestQueue st).

(** From [s] to [s'] the clock stands still and the buffer only receives
    entries stamped with its reading. *)
Definition queued_since (s s' : State) : Prop :=
  now s' = now s /\
  exists l, requestQueue s' = requestQueue s ++ l /\
            Forall (fun item => q_timestamp item = now s) l.

Definition unauthorized : HttpResponse :=
  mkResponse 401 "Unauthorized" (Some "application/json")
    (Normal (mkDoc (Some "Token expired") None None "{}")) (Throw ThrownUndefined).

End APIMore.

(** ** Notions for further properties of withRetry *)

Module RetryMore.
Import Retry.

Section Attempts.

Context {S Value : Type}.
Variable fn : S -> S * Completion Value.


End Attempts.




End RetryMore.

(** ** Utils.generateUUID (part_000, 114-121) *)

Module UUID.

(** [v.toString(16)] for [v] from 0 to 15. *)
Definition hex_digit (v : Z) : ascii :=
  match v with
  | 0 => "0" | 1 => "1" | 2 => "2" | 3 => "3" | 4 => "4" | 5 => "5" | 6 => "6"
  | 7 => "7" | 8 => "8" | 9 => "9" | 10 => "a" | 11 => "b" | 12 => "c"
  | 13 => "d" | 14 => "e" | _ => "f"
  end%char.

Definition template : string := "xxxxxxxx-xxxx-4xxx-yxxx-xxxxxxxxxxxx".

(** [template.replace(/[xy]/g, callback)]: the callback runs once for each
    match, from left to right; [rnd k] is the value of
    [Math.random() * 16 | 0] at the k-th call. *)
Fixpoint replace_xy (t : string) (rnd : nat -> Z) (k : nat) : string :=
  match t with
  | EmptyString => EmptyString
  | String c t' =>
      if Ascii.eqb c "x" then
        String (hex_digit (rnd k)) (replace_xy t' rnd (S k))
      else if Ascii.eqb c "y" then
        String (hex_digit (Z.lor (Z.land (rnd k) 3) 8)) (replace_xy t' rnd (S k))
      else String c (replace_xy t' rnd k)
  end.

(** [generateUUID()] *)
Definition generateUUID (rnd : nat -> Z) : string := replace_xy template rnd 0.

Definition is_hex (c : ascii) : bool :=
  bool_decide (c ∈ ["0"; "1"; "2"; "3"; "4"; "5"; "6"; "7"; "8"; "9";
                    "a"; "b"; "c"; "d"; "e"; "f"]%char).

End UUID.

(** ** API.cache (notifications.js, 855-879) *)

Module Cache.

Section Cache.

Context {V : Type}.

(** The functions of [cache] are arrow functions written in a class field,
    so their [this] is the client and not the [cache] object: [this.data]
    and [this.timestamps] are properties of the client.  The class defines
    neither, so they are [undefined] ([None]) unless outside code attaches
    maps under these names. *)
Record State := mkState {
  this_data : option (gmap string V);
  this_timestamps : option (gmap string Z)
}.

(** What [cache.get] returns. *)
Inductive Result :=
| Found (v : V)
| Undefined
| Null.

Definition throw_undefined {A} (prop : string) : Completion A :=
  Throw (ThrownError (TypeError_undefined prop)).

(** [cache.set(key, data, ttl = 5 * 60 * 1000)] at time [now] *)
Definition set (key : string) (data : V) (ttl : option Z) (now : Z) (st : State)
  : State * Completion unit :=
  let ttl := default (5 * 60 * 1000) ttl in
  match this_data st with
  | None => (st, throw_undefined "set")
  | Some d =>
      let st := mkState (Some (<[key := data]> d)) (this_timestamps st) in
      match this_timestamps st with
      | None => (st, throw_undefined "set")
      | Some t => (mkState (this_data st) (Some (<[key := now + ttl]> t)), Normal ())
      end
  end.

(** [cache.get(key)] at time [now]; a missing timestamp compares false. *)
Definition get (key : string) (now : Z) (st : State) : State * Completion Result :=
  match this_timestamps st with
  | None => (st, throw_undefined "get")
  | Some t =>
      if match t !! key with Some e => now <? e | None => false end
      then
        match this_data st with
        | None => (st, throw_undefined "get")
        | Some d => (st, Normal match d !! key with Some v => Found v | None => Undefined end)
        end
      else
        match this_data st with
        | None => (st, throw_undefined "delete")
        | Some d => (mkState (Some (delete key d)) (Some (delete key t)), Normal Null)
        end
  end.

(** [cache.clear()] *)
Definition clear (st : State) : State * Completion unit :=
  match this_data st with
  | None => (st, throw_undefined "clear")
  | Some _ =>
      let st := mkState (Some ∅) (this_timestamps st) in
      match this_timestamps st with
      | None => (st, throw_undefined "clear")
      | Some _ => (mkState (this_data st) (Some ∅), Normal ())
      end
  end.

(** The client as its class builds it. *)
Definition as_constructed : State := mkState None None.

End Cache.

Arguments State : clear implicits.
Arguments Result : clear implicits.

End Cache.

(** ** API.get (notifications.js, 520-529) *)

Module Get.
Import API.

Section Get.

(** The host's [URL]: the constructor, [searchParams.append] and
    [toString]. *)
Context {U : Type}.
Variable URL_parse : string -> Completion U.
Variable URL_append : string -> string -> U -> U.
Variable URL_toString : U -> string.

(** The address that [get] hands to [request]; a parameter that is [null]
    or [undefined] ([None]) is left out. *)
Definition get_url (endpoint : string) (params : list (string * option string))
  : Completion string :=
  bindC (URL_parse (url_of endpoint)) (fun url =>
  Normal (URL_toString
            (fold_left
               (fun url kv =>
                  match kv.2 with Some v => URL_append kv.1 v url | None => url end)
               params url))).

(** An outside caller calls [get(endpoint, params)] and gets promise number
    [p]: an exception of the [async] function rejects it, otherwise it
    follows the promise of [request]. *)
Definition call_get (endpoint : string) (params : list (string * option string))
    (st : State) : State * nat :=
  let p := next_promise st in
  let st := set_next_promise (S p) st in
  match get_url endpoint params with
  | Throw e => (settle_caller p (Rejected e) st, p)
  | Normal url => (request_start url (mkConfig (Some "GET") None None None) (WCaller p) st, p)
  end.

End Get.

(** A host that accepts the addresses with an http or https scheme and
    keeps them as text. *)
Definition toy_parse (s : string) : Completion string :=
  if String.prefix "http://" s || String.prefix "https://" s then Normal s
  else Throw (ThrownError (mkError "TypeError" "Invalid URL" None)).

Definition toy_append (k v u : string) : string := u +:+ "&" +:+ k +:+ "=" +:+ v.

End Get.

(** ** Utils.throttle (part_000, 29-42) *)

Module Throttle.

(** A wrapper returned by [throttle(func, limit)]: the source text of
    [func], which with [limit] makes the key of its slot, and the function
    itself. *)
Record Wrapper := mkWrapper {
  w_source : string;
  w_func : nat;
  w_limit : Z
}.

Global Instance Wrapper_eq_dec : EqDecision Wrapper.
Proof. solve_decision. Defined.

(** [func.toString() + limit] *)
Definition key (w : Wrapper) : string :=
  w_source w +:+ Notifications.decimal (w_limit w).

(** A run of [func]: when, through which wrapper, and whether it returned
    (rather than threw). *)
Record Run := mkRun {
  r_time : Z;
  r_wrapper : Wrapper;
  r_returned : bool
}.

Record State := mkState {
  throttleTimers : gset string;      (* keys of this.throttleTimers *)
  timers : list (Z * string);        (* pending timers: due time, key to delete *)
  now : Z;
  runs : list Run                    (* calls of func, oldest first *)
}.

Definition new (t0 : Z) : State := mkState ∅ [] t0 [].

(** A call of the wrapper; [returns] tells whether [func] returns.  When
    it throws, the exception leaves the wrapper before the slot is taken. *)
Definition call (w : Wrapper) (returns : bool) (st : State) : State :=
  if bool_decide (key w ∈ throttleTimers st) then st
  else if returns then
    mkState ({[key w]} ∪ throttleTimers st)
      (timers st ++ [(now st + Z.max 0 (w_limit w), key w)])
      (now st) (runs st ++ [mkRun (now st) w true])
  else
    mkState (throttleTimers st) (timers st) (now st)
      (runs st ++ [mkRun (now st) w false]).

Fixpoint earliest (l : list (Z * string)) : option (Z * string) :=
  match l with
  | [] => None
  | t :: l' =>
      match earliest l' with
      | Some t' => if t'.1 <? t.1 then Some t' else Some t
      | None => Some t
      end
  end.

Fixpoint drop_timer (t : Z * string) (l : list (Z * string)) : list (Z * string) :=
  match l with
  | [] => []
  | t' :: l' => if decide (t' = t) then l' else t' :: drop_timer t l'
  end.

Inductive Event :=
| ECall (w : Wrapper) (returns : bool)
| ETick (t : Z)
| EFire.

(** Timers are punctual: the clock cannot pass a pending timer, and a
    timer fires once its time has come. *)
Definition enabled (ev : Event) (st : State) : bool :=
  match ev with
  | ECall _ _ => true
  | ETick t => (now st <=? t) && forallb (fun tm => t <=? tm.1) (timers st)
  | EFire =>
      match earliest (timers st) with
      | Some tm => tm.1 <=? now st
      | None => false
      end
  end.

Definition exec (ev : Event) (st : State) : State :=
  match ev with
  | ECall w returns => call w returns st
  | ETick t => mkState (throttleTimers st) (timers st) t (runs st)
  | EFire =>
      match earliest (timers st) with
      | Some tm =>
          mkState (throttleTimers st ∖ {[tm.2]}) (drop_timer tm (timers st))
            (now st) (runs st)
      | None => st
      end
  end.

Fixpoint run (evs : list Event) (st : State) : option State :=
  match evs with
  | [] => Some st
  | ev :: evs' => if enabled ev st then run evs' (exec ev st) else None
  end.

(** What holds between the slots, the timers and the runs. *)
Record Inv (st : State) : Prop := {
  inv_slot : forall k, k ∈ throttleTimers st <-> exists d, (d, k) ∈ timers st;
  inv_one : NoDup (timers st).*2;
  inv_due : Forall (fun tm => now st <= tm.1) (timers st);
  inv_past : Forall (fun r => r_time r <= now st) (runs st);
  inv_window : forall r, r ∈ runs st -> r_returned r = true ->
    now st < r_time r + Z.max 0 (w_limit (r_wrapper r)) ->
    (r_time r + Z.max 0 (w_limit (r_wrapper r)), key (r_wrapper r)) ∈ timers st
}.


End Throttle.

(** ** Utils.debounce (part_000, 11-27) *)

Module Debounce.

(** A wrapper returned by [debounce(func, wait, immediate)]. *)
Record Wrapper := mkWrapper {
  w_source : string;     (* func.toString() *)
  w_func : nat;          (* the function itself *)
  w_wait : Z;
  w_immediate : bool
}.

Global Instance Wrapper_eq_dec : EqDecision Wrapper.
Proof. solve_decision. Defined.

(** [func.toString() + wait] *)
Definition key (w : Wrapper) : string :=
  w_source w +:+ Notifications.decimal (w_wait w).

(** A call of a wrapper; its position in [calls] stands for its
    arguments. *)
Record Call := mkCall {
  c_time : Z;
  c_wrapper : Wrapper
}.

(** A pending timer: its handle, when it is due, and the call whose
    wrapper and arguments its callback closes over. *)
Record Timer := mkTimer {
  t_handle : nat;
  t_due : Z;
  t_call : nat;
  t_wrapper : Wrapper
}.

Global Instance Timer_eq_dec : EqDecision Timer.
Proof. solve_decision. Defined.

(** A run of [func]: when, and with the arguments of which call. *)
Record Run := mkRun {
  r_time : Z;
  r_call : nat
}.

Record State := mkState {
  debounceTimers : gmap string nat;   (* this.debounceTimers: key to handle *)
  timers : list Timer;
  next_handle : nat;
  now : Z;
  calls : list Call;
  runs : list Run
}.

Definition new (t0 : Z) : State := mkState ∅ [] 0 t0 [] [].

(** [clearTimeout(handle)]; [undefined] and handles of timers that are
    gone do nothing. *)
Definition clearTimeout (handle : option nat) (l : list Timer) : list Timer :=
  match handle with
  | Some h => filter (fun tm => t_handle tm <> h) l
  | None => l
  end.

(** A call of the wrapper. *)
Definition call (w : Wrapper) (st : State) : State :=
  let k := key w in
  let callNow :=
    w_immediate w && negb (bool_decide (is_Some (debounceTimers st !! k))) in
  let i := length (calls st) in
  let h := next_handle st in
  mkState (<[k := h]> (debounceTimers st))
    (clearTimeout (debounceTimers st !! k) (timers st)
       ++ [mkTimer h (now st + Z.max 0 (w_wait w)) i w])
    (S h) (now st) (calls st ++ [mkCall (now st) w])
    (if callNow then runs st ++ [mkRun (now st) i] else runs st).

(** The callback of a timer. *)
Definition fire (tm : Timer) (st : State) : State :=
  let w := t_wrapper tm in
  mkState (delete (key w) (debounceTimers st)) (timers st) (next_handle st) (now st)
    (calls st)
    (if w_immediate w then runs st else runs st ++ [mkRun (now st) (t_call tm)]).

Fixpoint earliest (l : list Timer) : option Timer :=
  match l with
  | [] => None
  | t :: l' =>
      match earliest l' with
      | Some t' => if t_due t' <? t_due t then Some t' else Some t
      | None => Some t
      end
  end.

Inductive Event :=
| ECall (w : Wrapper)
| ETick (t : Z)
| EFire.

(** Timers are punctual: the clock cannot pass a pending timer, and a
    timer fires once its time has come. *)
Definition enabled (ev : Event) (st : State) : bool :=
  match ev with
  | ECall _ => true
  | ETick t => (now st <=? t) && forallb (fun tm => t <=? t_due tm) (timers st)
  | EFire =>
      match earliest (timers st) with
      | Some tm => t_due tm <=? now st
      | None => false
      end
  end.

Definition exec (ev : Event) (st : State) : State :=
  match ev with
  | ECall w => call w st
  | ETick t =>
      mkState (debounceTimers st) (timers st) (next_handle st) t (calls st) (runs st)
  | EFire =>
      match earliest (timers st) with
      | Some tm =>
          fire tm
            (mkState (debounceTimers st)
               (filter (fun tm' => t_handle tm' <> t_handle tm) (timers st))
               (next_handle st) (now st) (calls st) (runs st))
      | None => st
      end
  end.

Fixpoint run (evs : list Event) (st : State) : option State :=
  match evs with
  | [] => Some st
  | ev :: evs' => if enabled ev st then run evs' (exec ev st) else None
  end.

(** Call number [i] is the last one through its key. *)
Definition last_of_key (l : list Call) (i : nat) (c : Call) : Prop :=
  l !! i = Some c /\
  forall j c', (i < j)%nat -> l !! j = Some c' ->
    key (c_wrapper c') <> key (c_wrapper c).

(** What holds between the map of handles, the timers and the calls. *)
Record Inv (st : State) : Prop := {
  inv_handle : forall tm, tm ∈ timers st ->
    debounceTimers st !! key (t_wrapper tm) = Some (t_handle tm);
  inv_pending : forall k h, debounceTimers st !! k = Some h ->
    exists tm, tm ∈ timers st /\ t_handle tm = h /\ key (t_wrapper tm) = k;
  inv_handles : NoDup (t_handle <$> timers st);
  inv_next : Forall (fun tm => (t_handle tm < next_handle st)%nat) (timers st);
  inv_armed : forall tm, tm ∈ timers st ->
    last_of_key (calls st) (t_call tm)
      (mkCall (t_due tm - Z.max 0 (w_wait (t_wrapper tm))) (t_wrapper tm));
  inv_due : Forall (fun tm => now st <= t_due tm) (timers st);
  inv_calls : Forall (fun c => c_time c <= now st) (calls st);
  inv_runs : Forall (fun r => r_time r <= now st) (runs st);
  inv_window : forall i c, last_of_key (calls st) i c ->
    now st < c_time c + Z.max 0 (w_wait (c_wrapper c)) ->
    is_Some (debounceTimers st !! key (c_wrapper c))
}.




End Debounce.

(** ** Cart: the items and their quantities (cart.js, 115-197) *)

Module Cart.

Section Cart.

(** The product data that [getProductData] returns stays opaque. *)
Context {P : Type}.
Variable getProductData : string -> option P.

Record Item := mkItem {
  i_id : string;
  i_product : P;
  i_quantity : Z
}.

Record State := mkState {
  items : list Item;                          (* this.items *)
  Notifications_defined : bool;               (* typeof Notifications !== 'undefined' *)
  notifications : option (list (string * string))
    (* this.notifications: the class never assigns it; an attached manager
       is seen through the calls (message, type) of [show] *)
}.

Definition set_items (l : list Item) (st : State) : State :=
  mkState l (Notifications_defined st) (notifications st).

(** [if (typeof Notifications !== 'undefined') this.notifications.show(message, type)] *)
Definition notify (message type : string) (st : State) : State * Completion unit :=
  if Notifications_defined st then
    match notifications st with
    | None => (st, Throw (ThrownError (TypeError_undefined "show")))
    | Some calls =>
        (mkState (items st) (Notifications_defined st) (Some (calls ++ [(message, type)])),
         Normal ())
    end
  else (st, Normal ()).

(** [this.items.find(item => item.id === productId)] *)
Definition find_item (productId : string) (l : list Item) : option Item :=
  List.find (fun item => String.eqb (i_id item) productId) l.

(** Assignment to the [quantity] of the item that [find] returns: the
    first one with this identifier. *)
Fixpoint set_quantity_of (productId : string) (f : Z -> Z) (l : list Item) : list Item :=
  match l with
  | [] => []
  | item :: l' =>
      if String.eqb (i_id item) productId
      then mkItem (i_id item) (i_product item) (f (i_quantity item)) :: l'
      else item :: set_quantity_of productId f l'
  end.

Definition added_message (quantity : Z) : string :=
  "✝️ Added " +:+ Notifications.decimal quantity +:+ " faith item"
    +:+ (if 1 <? quantity then "s" else "") +:+ " to cart!".

(** [addItem(productId, quantity = 1)] *)
Definition addItem (productId : string) (quantity : option Z) (st : State)
  : State * Completion unit :=
  let quantity := default 1 quantity in
  let st :=
    match find_item productId (items st) with
    | Some _ => set_items (set_quantity_of productId (fun q => q + quantity) (items st)) st
    | None =>
        match getProductData productId with
        | Some product => set_items (items st ++ [mkItem productId product quantity]) st
        | None => st
        end
    end in
  notify (added_message quantity) "success" st.

(** [removeItem(productId)] *)
Definition removeItem (productId : string) (st : State) : State * Completion unit :=
  let st :=
    set_items (filter (fun item => i_id item <> productId) (items st)) st in
  notify "Faith item removed from cart" "info" st.

(** [updateQuantity(productId, change)] *)
Definition updateQuantity (productId : string) (change : Z) (st : State)
  : State * Completion unit :=
  match find_item productId (items st) with
  | Some item =>
      let newQuantity := i_quantity item + change in
      if 0 <? newQuantity
      then (set_items (set_quantity_of productId (fun _ => newQuantity) (items st)) st,
            Normal ())
      else removeItem productId st
  | None => (st, Normal ())
  end.

(** [setQuantity(productId, quantity)] *)
Definition setQuantity (productId : string) (quantity : Z) (st : State) : State :=
  match find_item productId (items st) with
  | Some _ =>
      if 0 <? quantity
      then set_items (set_quantity_of productId (fun _ => quantity) (items st)) st
      else st
  | None => st
  end.

(** [clearCart()] *)
Definition clearCart (st : State) : State := set_items [] st.

(** [getItemCount()] *)
Definition getItemCount (st : State) : Z :=
  fold_left (fun total item => total + i_quantity item) (items st) 0.


(** What the buttons and inputs of the page can ask of the cart. *)
Inductive Op :=
| OAdd (productId : string) (quantity : option Z)
| OUpdate (productId : string) (change : Z)
| OSet (productId : string) (quantity : Z)
| ORemove (productId : string)
| OClear.

Definition exec (op : Op) (st : State) : State :=
  match op with
  | OAdd productId quantity => (addItem productId quantity st).1
  | OUpdate productId change => (updateQuantity productId change st).1
  | OSet productId quantity => setQuantity productId quantity st
  | ORemove productId => (removeItem productId st).1
  | OClear => clearCart st
  end.

(** Only [addItem] takes a quantity as it comes. *)
Definition adds_positive (op : Op) : Prop :=
  match op with
  | OAdd _ (Some quantity) => 0 < quantity
  | _ => True
  end.

(** No product is listed twice, and every quantity is positive. *)
Definition well_formed (st : State) : Prop :=
  NoDup (i_id <$> items st) /\ Forall (fun item => 0 < i_quantity item) (items st).

End Cart.

Arguments Item : clear implicits.
Arguments State : clear implicits.

End Cart.

(** * Properties *)

(** ** Utils.storage *)

Section StorageFacts.

Context {Value Store : Type}.
Variable JSON_parse : string -> Completion Value.
Variable JSON_stringify : Value -> Completion (option string).
Variable getItem : Store -> string -> Completion (option string).
Variable setItem : Store -> string -> string -> Completion Store.
Variable removeItem : Store -> string -> Completion Store.

Local Abbreviation storage_get := (Utils.storage_get JSON_parse getItem).
Local Abbreviation storage_set := (Utils.storage_set JSON_stringify setItem).
Local Abbreviation storage_remove := (Utils.storage_remove removeItem).

Lemma parseJSON_total s fallback :
  exists v, Utils.parseJSON JSON_parse s fallback = Normal v.
Proof. unfold Utils.parseJSON. destruct (JSON_parse s); simpl; eauto. Qed.

Lemma stringifyJSON_total obj fallback :
  exists o, Utils.stringifyJSON JSON_stringify obj fallback = Normal o.
Proof. unfold Utils.stringifyJSON. destruct (JSON_stringify obj); simpl; eauto. Qed.

(** The string that [storage.set] hands to [setItem]. *)
Lemma storage_set_writes st key value :
  exists s,
    Utils.stringifyJSON JSON_stringify value "{}" = Normal s /\
    storage_set st key value =
      match setItem st key (Utils.to_DOMString s) with
      | Normal st' => Normal (st', true)
      | Throw _ => Normal (st, false)
      end.
Proof.
  destruct (stringifyJSON_total value "{}") as [s Hs]. exists s. split; [exact Hs|].
  unfold Utils.storage_set. rewrite Hs. simpl.
  destruct (setItem st key (Utils.to_DOMString s)); reflexivity.
Qed.

(** C8. The storage accessors never let an exception through: whatever the
    host does, [get] completes normally with a value, [set] and [remove]
    complete normally with a boolean; a failing read yields the fallback, a
    failing write or removal yields [false] and leaves the store alone, and
    an item that does not parse as JSON yields the caller's fallback. *)
Theorem storage_accessors_never_throw (st : Store) (key : string)
    (fallback value : Value) :
  (exists v, storage_get st key fallback = Normal v) /\
  (exists st' b, storage_set st key value = Normal (st', b)) /\
  (exists st' b, storage_remove st key = Normal (st', b)) /\
  (forall e, getItem st key = Throw e ->
     storage_get st key fallback = Normal fallback) /\
  (forall s e,
     Utils.stringifyJSON JSON_stringify value "{}" = Normal s ->
     setItem st key (Utils.to_DOMString s) = Throw e ->
     storage_set st key value = Normal (st, false)) /\
  (forall e, removeItem st key = Throw e ->
     storage_remove st key = Normal (st, false)) /\
  (forall s e, getItem st key = Normal (Some s) -> JSON_parse s = Throw e ->
     storage_get st key fallback = Normal fallback).
Proof.
  repeat split.
  - unfold Utils.storage_get. destruct (getItem st key) as [item|e]; simpl; [|eauto].
    destruct (Utils.item_truthy item); [|eauto].
    destruct (parseJSON_total (default "" item) fallback) as [v ->]. simpl. eauto.
  - destruct (storage_set_writes st key value) as (s & _ & ->).
    destruct (setItem st key (Utils.to_DOMString s)); eauto.
  - unfold Utils.storage_remove. destruct (removeItem st key); simpl; eauto.
  - intros e He. unfold Utils.storage_get. rewrite He. reflexivity.
  - intros s e Hs He. destruct (storage_set_writes st key value) as (s' & Hs' & ->).
    rewrite Hs in Hs'. injection Hs' as <-. rewrite He. reflexivity.
  - intros e He. unfold Utils.storage_remove. rewrite He. reflexivity.
  - intros s e Hget Hparse. unfold Utils.storage_get. rewrite Hget. simpl.
    destruct (negb (String.eqb s "")); [|reflexivity].
    unfold Utils.parseJSON. rewrite Hparse. reflexivity.
Qed.

End StorageFacts.

(** A store that holds a corrupt item, and one that refuses every access. *)
Lemma storage_accessors_witness :
  let corrupt := Utils.Build_MemStore {["cart" := "{oops"]} false 2 in
  let disabled := Utils.Build_MemStore ∅ true 100 in
  Utils.storage_get Utils.toy_parse Utils.ms_getItem corrupt "cart" (Utils.JBool true)
    = Normal (Utils.JBool true) /\
  Utils.storage_get Utils.toy_parse Utils.ms_getItem disabled "cart" Utils.JNull
    = Normal Utils.JNull /\
  Utils.storage_set Utils.toy_stringify Utils.ms_setItem corrupt "cart" (Utils.JBool false)
    = Normal (corrupt, false) /\
  Utils.storage_remove Utils.ms_removeItem disabled "cart" = Normal (disabled, false).
Proof.
  intros corrupt disabled.
  pose proof (storage_accessors_never_throw Utils.toy_parse Utils.toy_stringify
                Utils.ms_getItem Utils.ms_setItem Utils.ms_removeItem
                corrupt "cart" (Utils.JBool true) (Utils.JBool false))
    as (_ & _ & _ & _ & Hset & _ & Hbad).
  pose proof (storage_accessors_never_throw Utils.toy_parse Utils.toy_stringify
                Utils.ms_getItem Utils.ms_setItem Utils.ms_removeItem
                disabled "cart" Utils.JNull Utils.JNull)
    as (_ & _ & _ & Hread & _ & Hrem & _).
  split; [|split; [|split]].
  - apply (Hbad "{oops" (ThrownError Utils.SyntaxError)); reflexivity.
  - apply (Hread (ThrownError Utils.SecurityError)); reflexivity.
  - apply (Hset (Some "false") (ThrownError Utils.QuotaExceededError)); reflexivity.
  - apply (Hrem (ThrownError Utils.SecurityError)); reflexivity.
Defined.

(** ** API.withRetry *)

Section RetryFacts.

Context {S Value : Type}.
Variable fn : S -> S * Completion Value.




End RetryFacts.


(** ** Notifications: single operations *)

Section NotificationOps.

Import Notifications.

Lemma set_notifications_same st : set_notifications (notifications st) st = st.
Proof. destruct st; reflexivity. Qed.

Lemma find_none_filter_id (id : string) (l : list Notification) :
  List.find (fun n => String.eqb (n_id n) id) l = None ->
  filter (fun n => n_id n <> id) l = l.
Proof.
  induction l as [|n l IH]; simpl; [reflexivity|].
  destruct (String.eqb_spec (n_id n) id) as [Heq|Hne]; [discriminate|].
  intros H. rewrite filter_cons_True by assumption. f_equal. auto.
Qed.

Lemma find_some_elem (id : string) (l : list Notification) n :
  List.find (fun n => String.eqb (n_id n) id) l = Some n -> n ∈ l /\ n_id n = id.
Proof.
  intros H. apply List.find_some in H as [Hin Heq].
  split; [by apply list_elem_of_In|]. by apply String.eqb_eq.
Qed.

(** [remove] is the filter on the identifier, whether or not [find] finds
    a match. *)
Lemma remove_filter id st :
  remove id st = set_notifications (filter (fun n => n_id n <> id) (notifications st)) st.
Proof.
  unfold remove.
  destruct (List.find _ (notifications st)) eqn:Hfind; [reflexivity|].
  rewrite find_none_filter_id by assumption. symmetry. apply set_notifications_same.
Qed.

Lemma remove_unknown id st :
  id ∉ map n_id (notifications st) -> remove id st = st.
Proof.
  intros Hnot. unfold remove.
  destruct (List.find _ (notifications st)) as [n|] eqn:Hfind; [|reflexivity].
  apply find_some_elem in Hfind as [Hin <-].
  exfalso. apply Hnot. apply list_elem_of_fmap. eauto.
Qed.

Lemma remove_idempotent id st : remove id (remove id st) = remove id st.
Proof.
  apply remove_unknown. rewrite remove_filter. simpl.
  intros Hin. apply list_elem_of_fmap in Hin as (n & -> & Hn).
  apply list_elem_of_filter in Hn as [Hne _]. by apply Hne.
Qed.

End NotificationOps.


(** C10. [remove(id)] keeps exactly the notifications whose identifier
    differs from [id], in their order and as they are (every attribute
    untouched), and changes nothing else in the manager. *)
Theorem remove_frame (id : string) (st : Notifications.State) :
  Notifications.notifications (Notifications.remove id st)
    = filter (fun n => Notifications.n_id n <> id) (Notifications.notifications st) /\
  (forall n, n ∈ Notifications.notifications st -> Notifications.n_id n <> id ->
     n ∈ Notifications.notifications (Notifications.remove id st)) /\
  (forall n, n ∈ Notifications.notifications (Notifications.remove id st) ->
     n ∈ Notifications.notifications st /\ Notifications.n_id n <> id) /\
  Notifications.notifications (Notifications.remove id st)
    `sublist_of` Notifications.notifications st /\
  Notifications.queue (Notifications.remove id st) = Notifications.queue st /\
  Notifications.isProcessing (Notifications.remove id st) = Notifications.isProcessing st /\
  Notifications.timers (Notifications.remove id st) = Notifications.timers st /\
  Notifications.log (Notifications.remove id st) = Notifications.log st.
Proof.
  rewrite remove_filter. simpl. repeat split.
  - intros n Hin Hne. apply list_elem_of_filter. auto.
  - apply list_elem_of_filter in H. tauto.
  - apply list_elem_of_filter in H. tauto.
  - apply sublist_filter.
Qed.

(** Two live notifications, one removed. *)
Lemma remove_frame_witness :
  let a := Notifications.make_notification "saved" "success" Notifications.no_options "aaa" 5 in
  let b := Notifications.make_notification "failed" "error" Notifications.no_options "bbb" 5 in
  let st := Notifications.set_notifications [a; b] (Notifications.new 5) in
  b ∈ Notifications.notifications (Notifications.remove (Notifications.n_id a) st).
Proof.
  intros a b st.
  apply (proj1 (proj2 (remove_frame (Notifications.n_id a) st)) b).
  - apply list_elem_of_In. simpl. auto.
  - vm_compute. discriminate.
Defined.

(** ** Identifiers *)

Lemma no_dash_NilEmpty d : no_dash (NilEmpty.string_of_uint d).
Proof. induction d; simpl; auto; split; auto; discriminate. Qed.

Lemma no_dash_NilZero d : no_dash (NilZero.string_of_uint d).
Proof.
  destruct d; try apply no_dash_NilEmpty.
  simpl. split; [discriminate|exact I].
Qed.

Lemma decimal_no_dash z : 0 <= z -> no_dash (Notifications.decimal z).
Proof.
  intros Hz. unfold Notifications.decimal.
  destruct z as [|p|p]; [apply no_dash_NilZero..|lia].
Qed.

Lemma decimal_inj z1 z2 :
  Notifications.decimal z1 = Notifications.decimal z2 -> z1 = z2.
Proof.
  unfold Notifications.decimal. intros H.
  apply DecimalZ.to_int_inj.
  assert (Hnn : forall z, Z.to_int z <> Decimal.Pos Decimal.Nil /\
                          Z.to_int z <> Decimal.Neg Decimal.Nil).
  { intros [|p|p]; simpl; split; try discriminate;
      intros [= Hp]; by apply DecimalPos.Unsigned.to_uint_nonnil in Hp. }
  apply (f_equal NilZero.int_of_string) in H.
  rewrite !NilZero.isi in H by apply Hnn. congruence.
Qed.

(** The first [-] of a string decides where it splits. *)
Lemma append_dash_inj s1 s2 r1 r2 :
  no_dash s1 -> no_dash s2 ->
  s1 +:+ "-" +:+ r1 = s2 +:+ "-" +:+ r2 -> s1 = s2 /\ r1 = r2.
Proof.
  revert s2. induction s1 as [|c s1 IH]; intros [|c' s2]; cbn.
  - intros _ _ H. injection H as H. auto.
  - intros _ [Hc _] H. injection H as H _. congruence.
  - intros [Hc _] _ H. injection H as H _. congruence.
  - intros [_ H1] [_ H2] H. injection H as Hc H.
    destruct (IH _ H1 H2 H) as [E1 E2]. subst. auto.
Qed.

Lemma generateId_inj t1 r1 t2 r2 :
  0 <= t1 -> 0 <= t2 ->
  Notifications.generateId t1 r1 = Notifications.generateId t2 r2 ->
  t1 = t2 /\ r1 = r2.
Proof.
  intros H1 H2. unfold Notifications.generateId. intros H.
  simpl in H. repeat (injection H as H).
  apply append_dash_inj in H as [Hd ->]; auto using decimal_no_dash.
  apply decimal_inj in Hd. auto.
Qed.

(** ** Notifications: runs of the event loop *)

Section NotificationRuns.

Import Notifications NotificationsInv.

Lemma run_invariant (P : State -> Prop) :
  (forall st ev, P st -> enabled ev st = true -> P (exec ev st)) ->
  forall evs st st', P st -> run evs st = Some st' -> P st'.
Proof.
  intros Hstep. induction evs as [|ev evs IH]; simpl; intros st st' HP Hrun.
  - by injection Hrun as <-.
  - destruct (enabled ev st) eqn:Hen; [|discriminate]. eauto.
Qed.

Lemma fold_left_invariant {A} (P : State -> Prop) (f : State -> A -> State) l :
  (forall st x, P st -> P (f st x)) -> forall st, P st -> P (fold_left f l st).
Proof. intros Hf. induction l; simpl; auto. Qed.

(** *** Timers *)

Lemma earliest_elem l tm : earliest l = Some tm -> tm ∈ l.
Proof.
  revert tm. induction l as [|t l IH]; simpl; [discriminate|].
  intros tm. destruct (earliest l) as [t'|].
  - destruct (due t' <? due t); intros [= <-]; [right; auto | left].
  - intros [= <-]. left.
Qed.

Lemma elem_of_drop_timer t l x : x ∈ drop_timer t l -> x ∈ l.
Proof.
  induction l as [|t' l IH]; simpl; [auto|].
  destruct (decide (t' = t)); [by right|].
  intros [->|H]%elem_of_cons; [left | right; auto].
Qed.

Lemma elem_of_drop_timer_ne t l x : x ∈ l -> x <> t -> x ∈ drop_timer t l.
Proof.
  induction l as [|t' l IH]; simpl; [auto|].
  intros [Heq|H]%elem_of_cons Hne.
  - subst t'. destruct (decide (x = t)); [done|left].
  - destruct (decide (t' = t)); [done|right; auto].
Qed.

Lemma filter_drop_timer_other (P : Timer -> Prop) `{!forall x, Decision (P x)} t l :
  ~ P t -> filter P (drop_timer t l) = filter P l.
Proof.
  intros Ht. induction l as [|t' l IH]; simpl; [done|].
  destruct (decide (t' = t)) as [->|Hne].
  - by rewrite filter_cons_False.
  - rewrite !filter_cons. by rewrite IH.
Qed.

Lemma filter_drop_timer_same (P : Timer -> Prop) `{!forall x, Decision (P x)} t l :
  P t -> filter P (drop_timer t l) = drop_timer t (filter P l).
Proof.
  intros Ht. induction l as [|t' l IH]; simpl; [done|].
  destruct (decide (t' = t)) as [->|Hne].
  - rewrite filter_cons_True by done. simpl. by rewrite decide_True.
  - rewrite !filter_cons. destruct (decide (P t')); [|done].
    simpl. rewrite decide_False by done. by rewrite IH.
Qed.

(** *** The history *)

Lemma draws_emit o st :
  draws (emit o st) =
    draws st ++ match o with Generated r => [(now st, r)] | _ => [] end.
Proof. unfold draws. simpl. rewrite omap_app. by destruct o. Qed.

Lemma rendered_emit o st :
  rendered (emit o st) =
    rendered st ++ match o with Rendered n => [n] | _ => [] end.
Proof. unfold rendered. simpl. rewrite omap_app. by destruct o. Qed.



(** *** Effect of [show] *)

Lemma show_notifications m t o r st :
  notifications (show m t o r st).1 =
    notifications st ++ [make_notification m t o r (now st)].
Proof. unfold show. by destruct (n_persistent _). Qed.

Lemma show_timers m t o r st :
  timers (show m t o r st).1 =
    timers st ++
      (if n_persistent (make_notification m t o r (now st)) then []
       else [removal_timer (make_notification m t o r (now st))]).
Proof.
  unfold show. destruct (n_persistent _); simpl; [by rewrite app_nil_r|done].
Qed.

Lemma show_log m t o r st :
  log (show m t o r st).1 =
    log st ++ [(now st, Generated r);
               (now st, Rendered (make_notification m t o r (now st)))].
Proof. unfold show. destruct (n_persistent _); simpl; by rewrite <- app_assoc. Qed.

Lemma show_now m t o r st : now (show m t o r st).1 = now st.
Proof. unfold show. by destruct (n_persistent _). Qed.

Lemma show_queue m t o r st : queue (show m t o r st).1 = queue st.
Proof. unfold show. by destruct (n_persistent _). Qed.



Lemma show_id m t o r st : (show m t o r st).2 = generateId (now st) r.
Proof. reflexivity. Qed.

Lemma draws_show m t o r st : draws (show m t o r st).1 = draws st ++ [(now st, r)].
Proof. unfold draws. rewrite show_log, omap_app. reflexivity. Qed.

Lemma rendered_show m t o r st :
  rendered (show m t o r st).1 = rendered st ++ [make_notification m t o r (now st)].
Proof. unfold rendered. rewrite show_log, omap_app. reflexivity. Qed.



(** *** The invariant of the live collection *)

Lemma BasicInv_new t0 : 0 <= t0 -> BasicInv (new t0).
Proof.
  intros Ht. split; simpl; try done.
  all: try (by constructor).
  - repeat constructor. simpl. lia.
  - intros n Hn. by apply elem_of_nil in Hn.
  - intros tm i [->|Hn%elem_of_nil]%elem_of_cons; [discriminate|done].
Qed.

Lemma BasicInv_show m t o r st : BasicInv st -> BasicInv (show m t o r st).1.
Proof.
  intros [Hc Hd Hi Hl Hdue Hrm Hcb].
  set (n := make_notification m t o r (now st)).
  split.
  - by rewrite show_now.
  - rewrite draws_show. apply Forall_app. split; [done|]. by constructor.
  - rewrite rendered_show, draws_show, !map_app, Hi. reflexivity.
  - rewrite show_notifications, rendered_show. by apply sublist_app.
  - rewrite show_now, show_timers. apply Forall_app. split; [done|].
    destruct (n_persistent _); constructor; [|constructor]. simpl. lia.
  - rewrite show_notifications, show_timers. intros n' Hn' Hp.
    apply elem_of_app in Hn' as [Hn'|Hn'].
    + apply elem_of_app. left. auto.
    + apply list_elem_of_singleton in Hn'. subst n'. fold n in Hp |- *.
      rewrite Hp. apply elem_of_app. right. left.
  - rewrite show_timers, rendered_show. intros tm i Htm Hi'.
    apply elem_of_app in Htm as [Htm|Htm].
    + destruct (Hcb tm i Htm Hi') as (n' & ? & ? & ?).
      exists n'. split; [apply elem_of_app; by left|done].
    + fold n in Htm. destruct (n_persistent n) eqn:Hp; [by apply elem_of_nil in Htm|].
      apply list_elem_of_singleton in Htm. subst tm. simpl in Hi'. injection Hi' as <-.
      exists n. split; [apply elem_of_app; right; left|done].
Qed.

Lemma BasicInv_remove id st : BasicInv st -> BasicInv (remove id st).
Proof.
  intros [Hc Hd Hi Hl Hdue Hrm Hcb]. rewrite remove_filter.
  split; simpl; try done.
  - etrans; [apply sublist_filter|done].
  - intros n Hn. apply list_elem_of_filter in Hn as [_ Hn]. auto.
Qed.

Lemma BasicInv_clear st : BasicInv st -> BasicInv (clear st).
Proof. apply fold_left_invariant. intros. by apply BasicInv_remove. Qed.

Lemma BasicInv_cleanupExpired st : BasicInv st -> BasicInv (cleanupExpired st).
Proof.
  apply fold_left_invariant. intros st' n H.
  destruct (_ && _); [by apply BasicInv_remove|done].
Qed.

Lemma BasicInv_emit o st :
  (forall r, o <> Generated r) -> (forall n, o <> Rendered n) ->
  BasicInv st -> BasicInv (emit o st).
Proof.
  intros Hg Hr [Hc Hd Hi Hl Hdue Hrm Hcb].
  assert (draws (emit o st) = draws st) as Ed.
  { rewrite draws_emit. destruct o; try apply app_nil_r. by destruct (Hg rnd). }
  assert (rendered (emit o st) = rendered st) as Er.
  { rewrite rendered_emit. destruct o; try apply app_nil_r. by destruct (Hr n). }
  split; rewrite ?Ed, ?Er; done.
Qed.

Lemma BasicInv_setTimeout cb d st :
  (forall i, cb <> CbRemove i) -> BasicInv st -> BasicInv (setTimeout cb d st).
Proof.
  intros Hcb' [Hc Hd Hi Hl Hdue Hrm Hcb]. split; simpl; try done.
  - apply Forall_app. split; [done|]. repeat constructor. simpl. lia.
  - intros n Hn Hp. apply elem_of_app. left. auto.
  - intros tm i [Htm|Htm]%elem_of_app Hi'; [eauto|].
    apply list_elem_of_singleton in Htm. subst tm. simpl in Hi'. by destruct (Hcb' i).
Qed.

Lemma BasicInv_set_queue q st : BasicInv st -> BasicInv (set_queue q st).
Proof. intros []. by split. Qed.

Lemma BasicInv_set_isProcessing b st : BasicInv st -> BasicInv (set_isProcessing b st).
Proof. intros []. by split. Qed.

Lemma BasicInv_set_next_resolve k st : BasicInv st -> BasicInv (set_next_resolve k st).
Proof. intros []. by split. Qed.

Lemma BasicInv_processQueue r st : BasicInv st -> BasicInv (processQueue r st).
Proof.
  intros H. unfold processQueue. destruct (queue st) as [|e rest].
  - by apply BasicInv_set_isProcessing.
  - destruct (show _ _ _ _ _) as [st1 id] eqn:Hshow.
    apply BasicInv_setTimeout; [discriminate|].
    apply BasicInv_emit; [discriminate..|].
    change st1 with (st1, id).1. rewrite <- Hshow.
    by apply BasicInv_show, BasicInv_set_queue, BasicInv_set_isProcessing.
Qed.

Lemma BasicInv_showQueued m t o r st : BasicInv st -> BasicInv (showQueued m t o r st).1.
Proof.
  intros H. unfold showQueued. simpl.
  destruct (negb _); [apply BasicInv_processQueue|];
    by apply BasicInv_set_queue, BasicInv_set_next_resolve.
Qed.

Lemma BasicInv_tick t st : enabled (ETick t) st = true -> BasicInv st -> BasicInv (set_now t st).
Proof.
  simpl. intros [Hle Hall]%andb_prop [Hc Hd Hi Hl Hdue Hrm Hcb].
  apply Z.leb_le in Hle. split; simpl; try done; [lia|].
  apply Forall_forall. intros tm Htm.
  rewrite forallb_forall in Hall. apply Z.leb_le, Hall. by apply list_elem_of_In.
Qed.

(** Dropping a timer that is not a removal keeps the invariant. *)
Lemma BasicInv_drop_other tm st :
  (forall i, callback tm <> CbRemove i) ->
  BasicInv st -> BasicInv (set_timers (drop_timer tm (timers st)) st).
Proof.
  intros Hcb' [Hc Hd Hi Hl Hdue Hrm Hcb]. split; simpl; try done.
  - apply Forall_forall. intros x Hx%elem_of_drop_timer.
    by apply (proj1 (Forall_forall _ _) Hdue).
  - intros n Hn Hp. apply elem_of_drop_timer_ne; [auto|].
    intros <-. by destruct (Hcb' (n_id n)).
  - intros x i Hx%elem_of_drop_timer. eauto.
Qed.

(** A removal timer may go once its notifications are gone. *)
Lemma BasicInv_drop_remove tm id st :
  callback tm = CbRemove id ->
  BasicInv st -> BasicInv (remove id (set_timers (drop_timer tm (timers st)) st)).
Proof.
  intros Hcb' [Hc Hd Hi Hl Hdue Hrm Hcb]. rewrite remove_filter.
  split; simpl; try done.
  - etrans; [apply sublist_filter|done].
  - apply Forall_forall. intros x Hx%elem_of_drop_timer.
    by apply (proj1 (Forall_forall _ _) Hdue).
  - intros n [Hne Hn]%list_elem_of_filter Hp. apply elem_of_drop_timer_ne; [auto|].
    intros <-. simpl in Hcb'. congruence.
  - intros x i Hx%elem_of_drop_timer. eauto.
Qed.

Lemma BasicInv_exec ev st : BasicInv st -> enabled ev st = true -> BasicInv (exec ev st).
Proof.
  intros H Hen. destruct ev as [m t o r|id| |m t o r|t|r]; simpl.
  - by apply BasicInv_show.
  - by apply BasicInv_remove.
  - by apply BasicInv_clear.
  - by apply BasicInv_showQueued.
  - by apply BasicInv_tick.
  - destruct (earliest (timers st)) as [tm|]; [|done].
    unfold run_callback. destruct (callback tm) as [|id|p id] eqn:Hcb.
    + apply BasicInv_setTimeout; [discriminate|].
      apply BasicInv_cleanupExpired, BasicInv_drop_other; [|done].
      rewrite Hcb. discriminate.
    + by apply BasicInv_drop_remove.
    + apply BasicInv_processQueue, BasicInv_emit; [discriminate..|].
      apply BasicInv_drop_other; [|done]. rewrite Hcb. discriminate.
Qed.

Lemma BasicInv_run t0 evs st :
  0 <= t0 -> run evs (new t0) = Some st -> BasicInv st.
Proof.
  intros Ht. apply run_invariant; [|by apply BasicInv_new].
  intros. by apply BasicInv_exec.
Qed.

End NotificationRuns.

(** Decide a closed decidable proposition by evaluation. *)
Ltac by_compute := apply (bool_decide_unpack _); vm_compute; exact I.

Lemma NoDup_fmap_eq {A B} (f : A -> B) (l : list A) x y :
  NoDup (map f l) -> x ∈ l -> y ∈ l -> f x = f y -> x = y.
Proof.
  induction l as [|a l IH]; simpl; intros Hnd Hx Hy Hf.
  - by apply elem_of_nil in Hx.
  - apply NoDup_cons in Hnd as [Ha Hnd].
    apply elem_of_cons in Hx as [->|Hx]; apply elem_of_cons in Hy as [->|Hy]; auto.
    + exfalso. apply Ha. rewrite Hf. apply list_elem_of_fmap. eauto.
    + exfalso. apply Ha. rewrite <- Hf. apply list_elem_of_fmap. eauto.
Qed.



(** C4, as the code has it.  Identifiers are built from the clock and a
    random suffix; when no two calls of [generateId] draw the same pair, no
    identifier is ever issued twice and the live collection has no
    duplicate identifiers.  Removing twice is removing once, and removing
    an identifier that is not live changes nothing.  The typed wrappers are
    [show] at their severity. *)
Theorem unique_ids_for_distinct_draws (t0 : Z) (evs : list Notifications.Event)
    (st : Notifications.State) :
  0 <= t0 ->
  Notifications.run evs (Notifications.new t0) = Some st ->
  NoDup (Notifications.draws st) ->
  NoDup (map Notifications.n_id (Notifications.rendered st)) /\
  NoDup (map Notifications.n_id (Notifications.notifications st)) /\
  (forall id, Notifications.remove id (Notifications.remove id st)
              = Notifications.remove id st) /\
  (forall id, id ∉ map Notifications.n_id (Notifications.notifications st) ->
              Notifications.remove id st = st) /\
  (forall m o, Notifications.success m o = Notifications.show m "success" o /\
               Notifications.error m o = Notifications.show m "error" o /\
               Notifications.warning m o = Notifications.show m "warning" o /\
               Notifications.info m o = Notifications.show m "info" o).
Proof.
  intros Ht Hrun Hnd.
  destruct (BasicInv_run t0 evs st Ht Hrun) as [_ Hd Hi Hl _ _ _].
  assert (NoDup (map Notifications.n_id (Notifications.rendered st))) as Hr.
  { rewrite Hi. apply NoDup_fmap_2_strong; [|done].
    intros [t1 r1] [t2 r2] H1 H2 Heq. simpl in Heq.
    rewrite Forall_forall in Hd.
    apply generateId_inj in Heq as [-> ->]; [done|..].
    - apply (Hd _ H1).
    - apply (Hd _ H2). }
  split; [done|]. split.
  - apply (sublist_NoDup _ _ Hr). by apply fmap_sublist.
  - split; [intros; apply remove_idempotent|].
    split; [intros; by apply remove_unknown|]. done.
Qed.


(** Two calls of [show] in the same millisecond that draw the same random
    suffix get the same identifier. *)
Lemma unique_ids_can_fail : ~ NotificationsInv.unique_ids_always.
Proof.
  intros H.
  specialize (H 1000
    [Notifications.EShow "Added to cart" "success" Notifications.no_options "k3x";
     Notifications.EShow "Failed" "error" Notifications.no_options "k3x"]
    _ ltac:(lia) eq_refl).
  vm_compute in H. apply NoDup_cons in H as [H _]. apply H. left.
Qed.

Lemma unique_ids_for_distinct_draws_witness :
  exists st,
    Notifications.run
      [Notifications.EShow "Added to cart" "success" Notifications.no_options "k3x";
       Notifications.EShow "Failed" "error" Notifications.no_options "q9z";
       Notifications.ERemove "notification-1000-k3x"]
      (Notifications.new 1000) = Some st /\
    NoDup (map Notifications.n_id (Notifications.notifications st)).
Proof.
  eexists. split; [reflexivity|].
  apply (unique_ids_for_distinct_draws 1000
           [Notifications.EShow "Added to cart" "success" Notifications.no_options "k3x";
            Notifications.EShow "Failed" "error" Notifications.no_options "q9z";
            Notifications.ERemove "notification-1000-k3x"]).
  - lia.
  - reflexivity.
  - by_compute.
Defined.



(** ** Notifications: the sequential queue *)

Section SequentialQueue.

Import Notifications NotificationsInv.






Lemma queue_timers_app st l :
  filter is_queue_timer (timers st ++ l) = queue_timers st ++ filter is_queue_timer l.
Proof. apply filter_app. Qed.






(** [processQueue] on a queue with a head entry, with the pair returned by
    [show] taken apart. *)
Lemma processQueue_cons_eq r st e rest :
  queue st = e :: rest ->
  let sh := show (q_message e) (q_type e) (q_options e) r
              (set_queue rest (set_isProcessing true st)) in
  processQueue r st =
    setTimeout (CbQueueNext (q_resolve e) sh.2)
      (or_number (opt_duration (q_options e)) (getDefaultDuration (q_type e)) + 300)
      (emit (Dequeued (q_resolve e)
               (make_notification (q_message e) (q_type e) (q_options e) r (now sh.1)))
         sh.1).
Proof. intros Hq. unfold processQueue. rewrite Hq. reflexivity. Qed.











End SequentialQueue.




(** ** API: requests and the offline queue *)

Section OfflineQueue.

Import API Drain.


(** The suspended loop of [processQueue] goes on as [drain_loop]. *)
Lemma resume_drain item rest s st :
  resume (WDrain item rest) s st = drain_loop rest (settle_item item s st).
Proof.
  assert (forall st0,
    (fix loop (queue : list QueueItem) (st : State) {struct queue} : State :=
       match queue with
       | [] => st
       | item :: queue' =>
           if fresh (now st) item
           then request_start (q_endpoint item) (q_config item) (WDrain item queue') st
           else
             loop queue'
               match item with
               | mkItem _ _ _ (Some w') => resume w' expired st
               | mkItem _ _ _ None => st
               end
       end) rest st0 = drain_loop rest st0) as Hloop.
  { induction rest as [|it rest IH]; intros st0; [done|].
    cbn [drain_loop]. destruct (fresh (now st0) it); [done|].
    rewrite IH. by destruct it as [? ? ? [w|]]. }
  destruct item as [e c t [w|]]; cbn [resume]; rewrite Hloop; reflexivity.
Qed.



Lemma settle_caller_fields p s st :
  exists se lg,
    settle_caller p s st =
      mkState (isOnline st) (requestQueue st) (authToken st) (notifications st)
        (Notifications_defined st) (redirect_scheduled st) (now st) (inflight st)
        (next_fetch st) se (next_promise st) lg.
Proof.
  unfold settle_caller. destruct (settled st !! p); [|by eexists _, _].
  exists (settled st), (log st). by destruct st.
Qed.


Lemma fetches_fresh_same st st' :
  inflight st' = inflight st -> next_fetch st' = next_fetch st ->
  fetches_fresh st -> fetches_fresh st'.
Proof. intros Ei En H f Hf. rewrite Ei. apply H. lia. Qed.


(** Induction on a consumer, through the entries it holds. *)
Lemma Waiter_nested_ind (P : Waiter -> Prop) :
  (forall p, P (WCaller p)) ->
  (forall item rest,
     (forall w, q_resolver item = Some w -> P w) ->
     Forall (fun it => forall w, q_resolver it = Some w -> P w) rest ->
     P (WDrain item rest)) ->
  forall w, P w.
Proof.
  intros Hc Hd. fix IH 1. intros [p|item rest]; [apply Hc|].
  apply Hd.
  - destruct item as [e c t [w|]]; simpl; intros w' Hw; [|discriminate].
    injection Hw as <-. apply IH.
  - induction rest as [|it rest IHr]; constructor; [|exact IHr].
    destruct it as [e c t [w|]]; simpl; intros w' Hw; [|discriminate].
    injection Hw as <-. apply IH.
Qed.










Lemma api_run_invariant (P : State -> Prop) :
  (forall st ev, P st -> enabled ev st = true -> P (exec ev st)) ->
  forall evs st st', P st -> run evs st = Some st' -> P st'.
Proof.
  intros Hstep. induction evs as [|ev evs IH]; simpl; intros st st' HP Hrun.
  - by injection Hrun as <-.
  - destruct (enabled ev st) eqn:Hen; [|discriminate]. eauto.
Qed.

(** *** Fetch numbers *)





Lemma notify_fields level msg st st' :
  notify level msg st = Normal st' ->
  exists n, st' = set_notifications n st /\ (notifications st = None -> n = None).
Proof.
  unfold notify. destruct (Notifications_defined st).
  - destruct (notifications st); [|discriminate]. intros [= <-]. eexists. split; [done|].
    discriminate.
  - intros [= <-]. exists (notifications st). split; [by destruct st|done].
Qed.






Lemma settle_caller_settles p s st :
  settled st !! p = None -> settled (settle_caller p s st) !! p = Some s.
Proof. intros H. unfold settle_caller. rewrite H. simpl. apply lookup_insert_eq. Qed.

(** C1, where the code departs from it.  The class never assigns
    [this.notifications]; once the Notifications script is loaded, the
    notification call inside the promise executor of [queueRequest] throws
    a TypeError.  A failure met while offline still appends the entry
    [{endpoint, config, arrivalTime}] to the buffer, but the caller's
    promise is rejected with that TypeError at once instead of staying
    pending until the drain. *)
Theorem offline_failure_rejects_at_once (st : API.State) (f p : nat)
    (fl : API.Inflight) (e : JsError) :
  API.inflight st !! f = Some fl ->
  API.fl_waiter fl = API.WCaller p ->
  API.settled st !! p = None ->
  API.isOnline st = false ->
  API.cfg_queueOffline (API.fl_options fl) <> Some false ->
  API.Notifications_defined st = true ->
  API.notifications st = None ->
  API.requestQueue (API.exec (API.EFetchDone f (API.NetworkFailure e)) st)
    = API.requestQueue st
        ++ [API.mkItem (API.fl_endpoint fl) (API.fl_config fl) (API.now st) None] /\
  API.settled (API.exec (API.EFetchDone f (API.NetworkFailure e)) st) !! p
    = Some (API.Rejected (ThrownError (TypeError_undefined "info"))).
Proof.
  intros Hfl Hw Hp Hoff Hopt Hdef Hnone.
  cbn [exec]. rewrite Hfl. unfold request_finish. cbn [request_try].
  simpl isOnline. rewrite Hoff. cbn [negb andb].
  rewrite bool_decide_eq_false_2 by done. cbn [negb].
  unfold queueRequest, notify. simpl Notifications_defined. simpl notifications.
  rewrite Hdef, Hnone, Hw. cbn [resume]. split.
  - by destruct (settle_caller_fields p
         (Rejected (ThrownError (TypeError_undefined "info")))
         (set_requestQueue
            (requestQueue (set_inflight (delete f (inflight st)) st) ++
               [mkItem (fl_endpoint fl) (fl_config fl)
                  (now (set_inflight (delete f (inflight st)) st)) None])
            (set_inflight (delete f (inflight st)) st))) as (se & lg & ->).
  - by apply settle_caller_settles.
Qed.

(** Without the failing notification call the entry is queued with its
    promise pending. *)
Lemma offline_failure_is_queued st f p fl e :
  inflight st !! f = Some fl -> fl_waiter fl = WCaller p ->
  isOnline st = false -> cfg_queueOffline (fl_options fl) <> Some false ->
  Notifications_defined st = false ->
  exec (EFetchDone f (NetworkFailure e)) st
    = set_requestQueue
        (requestQueue st
           ++ [mkItem (fl_endpoint fl) (fl_config fl) (now st) (Some (WCaller p))])
        (set_inflight (delete f (inflight st)) st).
Proof.
  intros Hfl Hw Hoff Hopt Hdef.
  cbn [exec]. rewrite Hfl. unfold request_finish. cbn [request_try].
  simpl isOnline. rewrite Hoff. cbn [negb andb].
  rewrite bool_decide_eq_false_2 by done. cbn [negb].
  unfold queueRequest, notify. simpl Notifications_defined.
  rewrite Hdef, Hw. reflexivity.
Qed.


End OfflineQueue.

(** The scenario of the specification on the shipped page: offline, the
    Notifications script loaded, [request('/cart/items', {method: 'POST'})]
    fails on the network. *)
Lemma offline_failure_rejects_at_once_witness :
  exists st fl,
    API.run [API.ECall "/cart/items" Scenario.post]
      (API.new false (Some "tok") true 0) = Some st /\
    API.inflight st !! 0%nat = Some fl /\
    API.requestQueue
        (API.exec (API.EFetchDone 0 (API.NetworkFailure Scenario.failed_to_fetch)) st)
      = API.requestQueue st
          ++ [API.mkItem (API.fl_endpoint fl) (API.fl_config fl) (API.now st) None] /\
    API.settled
        (API.exec (API.EFetchDone 0 (API.NetworkFailure Scenario.failed_to_fetch)) st)
        !! 0%nat
      = Some (API.Rejected (ThrownError (TypeError_undefined "info"))).
Proof.
  eexists. eexists.
  split; [vm_compute; reflexivity|].
  split; [vm_compute; reflexivity|].
  apply offline_failure_rejects_at_once.
  - vm_compute. reflexivity.
  - vm_compute. reflexivity.
  - vm_compute. reflexivity.
  - vm_compute. reflexivity.
  - vm_compute. discriminate.
  - vm_compute. reflexivity.
  - vm_compute. reflexivity.
Defined.




(** * Further properties of the modelled code *)

(** ** Notifications: bulk removal, round trips, standing invariants *)

Section NotificationExtras.

Import Notifications NotificationsInv.

Lemma filter_keeps_all {A} (P : A -> Prop) `{!forall x, Decision (P x)} (l : list A) :
  (forall x, x ∈ l -> P x) -> filter P l = l.
Proof.
  induction l as [|x l IH]; intros Hall; [done|].
  rewrite filter_cons_True by (apply Hall; left). f_equal. apply IH.
  intros y Hy. apply Hall. by right.
Qed.

Lemma filter_keeps_none {A} (P : A -> Prop) `{!forall x, Decision (P x)} (l : list A) :
  (forall x, x ∈ l -> ~ P x) -> filter P l = [].
Proof.
  induction l as [|x l IH]; intros Hall; [done|].
  rewrite filter_cons_False by (apply Hall; left). apply IH.
  intros y Hy. apply Hall. by right.
Qed.

Lemma set_notifications_twice l1 l2 st :
  set_notifications l1 (set_notifications l2 st) = set_notifications l1 st.
Proof. reflexivity. Qed.

(** Removing a list of identifiers one after the other. *)
Lemma fold_remove_ids (ids : list string) :
  forall st,
    fold_left (fun st i => remove i st) ids st
    = set_notifications (filter (fun n => n_id n ∉ ids) (notifications st)) st.
Proof.
  induction ids as [|i ids IH]; intros st; simpl.
  - rewrite <- (set_notifications_same st) at 1. f_equal.
    symmetry. apply filter_keeps_all. intros n _. apply not_elem_of_nil.
  - rewrite IH, remove_filter. simpl. rewrite set_notifications_twice. f_equal.
    rewrite list_filter_filter. apply list_filter_iff.
    intros n. rewrite not_elem_of_cons. tauto.
Qed.

Lemma fold_left_fmap_remove (l : list Notification) st :
  fold_left (fun st n => remove (n_id n) st) l st
  = fold_left (fun st i => remove i st) (map n_id l) st.
Proof. revert st. induction l as [|n l IH]; intros st; simpl; auto. Qed.

(** [clear] as one update of the live collection. *)
Lemma clear_as_filter (st : State) :
  clear st
  = set_notifications
      (filter (fun n => n_id n ∉ map n_id (notifications st)) (notifications st)) st.
Proof. unfold clear. by rewrite fold_left_fmap_remove, fold_remove_ids. Qed.

(** X1. [clear()] empties the live collection and touches nothing else:
    pending timers, the sequential queue and the history stay as they
    are. *)
Theorem clear_empties (st : Notifications.State) :
  Notifications.clear st = Notifications.set_notifications [] st.
Proof.
  rewrite clear_as_filter. f_equal.
  apply filter_keeps_none. intros n Hn Hnot. apply Hnot.
  apply list_elem_of_fmap. eauto.
Qed.

Lemma filter_ext_in {A} (P Q : A -> Prop)
    `{!forall x, Decision (P x), !forall x, Decision (Q x)} (l : list A) :
  (forall x, x ∈ l -> P x <-> Q x) -> filter P l = filter Q l.
Proof.
  induction l as [|x l IH]; intros Hall; [done|].
  rewrite !filter_cons.
  rewrite IH by (intros y Hy; apply Hall; by right).
  destruct (decide (P x)) as [HP|HP], (decide (Q x)) as [HQ|HQ]; try done.
  - apply Hall in HP; [done|left].
  - apply Hall in HQ; [done|left].
Qed.

(** A pass of conditional removals is the removal of the identifiers that
    meet the condition. *)
Lemma fold_conditional_remove (dead : Notification -> bool) (l : list Notification) :
  forall st,
    fold_left (fun st n => if dead n then remove (n_id n) st else st) l st
    = fold_left (fun st i => remove i st)
        (map n_id (filter (fun n => dead n = true) l)) st.
Proof.
  induction l as [|n l IH]; intros st; [done|].
  simpl fold_left at 1. rewrite filter_cons.
  destruct (dead n) eqn:Hd.
  - rewrite decide_True by done. simpl. apply IH.
  - rewrite decide_False by done. apply IH.
Qed.

(** The sweep as one update of the live collection. *)
Lemma cleanupExpired_as_filter (st : State) :
  cleanupExpired st
  = set_notifications
      (filter (fun n => n_id n
                        ∉ map n_id
                            (filter (fun m =>
                                       negb (n_persistent m)
                                       && (n_duration m <=? now st - n_timestamp m) = true)
                               (notifications st)))
         (notifications st)) st.
Proof.
  unfold cleanupExpired. cbv zeta.
  rewrite (fold_conditional_remove
             (fun m => negb (n_persistent m) && (n_duration m <=? now st - n_timestamp m))).
  apply fold_remove_ids.
Qed.

(** X2. The expiry sweep removes the identifiers of the notifications
    that are not persistent and whose age has reached their duration, and
    nothing else: every survivor is persistent or not yet expired, and when
    the live identifiers are distinct the survivors are exactly the
    persistent and the unexpired notifications, in their order. *)
Theorem cleanupExpired_removes_expired (st : Notifications.State) :
  let dead n :=
    negb (Notifications.n_persistent n)
    && (Notifications.n_duration n
        <=? Notifications.now st - Notifications.n_timestamp n) in
  Notifications.cleanupExpired st
    = Notifications.set_notifications
        (filter (fun n => Notifications.n_id n
                          ∉ map Notifications.n_id
                              (filter (fun m => dead m = true)
                                 (Notifications.notifications st)))
           (Notifications.notifications st)) st /\
  (forall n, n ∈ Notifications.notifications (Notifications.cleanupExpired st) ->
     Notifications.n_persistent n = true \/
     Notifications.now st - Notifications.n_timestamp n < Notifications.n_duration n) /\
  (NoDup (map Notifications.n_id (Notifications.notifications st)) ->
   Notifications.notifications (Notifications.cleanupExpired st)
     = filter (fun n => dead n = false) (Notifications.notifications st)).
Proof.
  intros dead.
  assert (cleanupExpired st
          = set_notifications
              (filter (fun n => n_id n
                                ∉ map n_id (filter (fun m => dead m = true)
                                              (notifications st)))
                 (notifications st)) st) as Heq.
  { apply cleanupExpired_as_filter. }
  split; [exact Heq|]. rewrite Heq. simpl. split.
  - intros n [Hnot Hn]%list_elem_of_filter.
    destruct (dead n) eqn:Hd.
    + exfalso. apply Hnot. apply list_elem_of_fmap. exists n. split; [done|].
      by apply list_elem_of_filter.
    + unfold dead in Hd. apply andb_false_iff in Hd as [Hp|Hexp].
      * left. by apply negb_false_iff.
      * right. apply Z.leb_gt in Hexp. lia.
  - intros Hnd. apply filter_ext_in. intros n Hn. split.
    + intros Hnot. destruct (dead n) eqn:Hd; [|done].
      exfalso. apply Hnot. apply list_elem_of_fmap. exists n. split; [done|].
      by apply list_elem_of_filter.
    + intros Hd Hin. apply list_elem_of_fmap in Hin as (m & Hid & Hm).
      apply list_elem_of_filter in Hm as [Hdm Hm].
      assert (n = m) by (by apply (NoDup_fmap_eq n_id (notifications st))).
      congruence.
Qed.

Lemma cleanupExpired_removes_expired_witness :
  let expired := Notifications.mkNotification "a" "saved" "success" 0 3000 false None in
  let pinned := Notifications.mkNotification "b" "uploading" "info" 0 5000 true None in
  let recent := Notifications.mkNotification "c" "hello" "info" 4000 5000 false None in
  Notifications.notifications
    (Notifications.cleanupExpired
       (Notifications.mkState [expired; pinned; recent] [] false [] 6000 0 []))
  = [pinned; recent].
Proof.
  intros expired pinned recent.
  destruct (cleanupExpired_removes_expired
              (Notifications.mkState [expired; pinned; recent] [] false [] 6000 0 []))
    as (_ & _ & H).
  rewrite H; [reflexivity|]. by_compute.
Defined.

(** X3. Showing a notification and removing the identifier that [show]
    returned restores the live collection, provided the identifier was not
    already live. *)
Theorem show_then_remove (m t : string) (o : Notifications.Options) (r : string)
    (st : Notifications.State) :
  Notifications.generateId (Notifications.now st) r
    ∉ map Notifications.n_id (Notifications.notifications st) ->
  Notifications.notifications
    (Notifications.remove (Notifications.show m t o r st).2
       (Notifications.show m t o r st).1)
  = Notifications.notifications st.
Proof.
  intros Hfresh. rewrite remove_filter.
  unfold set_notifications at 1. cbn [notifications].
  rewrite show_notifications, show_id, filter_app.
  rewrite filter_cons_False by (simpl; tauto). rewrite filter_nil, app_nil_r.
  apply filter_keeps_all. intros n Hn Heq. apply Hfresh.
  rewrite <- Heq. apply list_elem_of_fmap. eauto.
Qed.

Lemma show_then_remove_witness :
  let st := (Notifications.show "Saved" "success" Notifications.no_options "aaa"
               (Notifications.new 5)).1 in
  Notifications.notifications
    (Notifications.remove
       (Notifications.show "Failed" "error" Notifications.no_options "bbb" st).2
       (Notifications.show "Failed" "error" Notifications.no_options "bbb" st).1)
  = Notifications.notifications st.
Proof.
  intros st. apply show_then_remove.
  vm_compute. intros H. apply list_elem_of_In in H. simpl in H.
  destruct H as [H|[]]. discriminate.
Defined.



End NotificationExtras.

Section SweepTimer.

Import Notifications NotificationsInv NotificationsMore.

Lemma sweep_filter_app st l :
  Forall (fun tm => ~ is_sweep tm) l ->
  filter is_sweep (timers st ++ l) = filter is_sweep (timers st).
Proof.
  intros Hl. rewrite filter_app.
  rewrite (filter_keeps_none is_sweep l); [apply app_nil_r|].
  intros x Hx. rewrite Forall_forall in Hl. by apply Hl.
Qed.

Lemma processQueue_timers r st :
  now (processQueue r st) = now st /\
  exists l, timers (processQueue r st) = timers st ++ l /\
            Forall (fun tm => ~ is_sweep tm) l.
Proof.
  destruct (queue st) as [|e rest] eqn:Hq.
  - unfold processQueue. rewrite Hq. split; [done|].
    exists []. split; [by rewrite app_nil_r|constructor].
  - rewrite (processQueue_cons_eq r st e rest Hq). cbv zeta.
    unfold setTimeout, emit. cbn -[show].
    rewrite show_now, show_timers. split; [done|].
    eexists. rewrite <- app_assoc. split; [reflexivity|].
    apply Forall_app. split; [|repeat constructor; discriminate].
    destruct (n_persistent _); repeat constructor. discriminate.
Qed.

(** X5. The expiry sweep never stops and never doubles: in every
    reachable state exactly one sweep timer is pending, and it is due
    within 1000ms. *)
Theorem sweep_always_armed (t0 : Z) (evs : list Notifications.Event)
    (st : Notifications.State) :
  0 <= t0 ->
  Notifications.run evs (Notifications.new t0) = Some st ->
  exists tm,
    filter NotificationsMore.is_sweep (Notifications.timers st) = [tm] /\
    Notifications.now st <= Notifications.due tm <= Notifications.now st + 1000.
Proof.
  intros Ht Hrun.
  assert (BasicInv st /\
          exists tm, filter is_sweep (timers st) = [tm] /\ due tm <= now st + 1000)
    as [HB (tm & Hf & Hd)].
  { revert Hrun.
    apply (run_invariant
             (fun st => BasicInv st /\
                exists tm, filter is_sweep (timers st) = [tm] /\
                           due tm <= now st + 1000)).
    2:{ split; [by apply BasicInv_new|]. eexists. split; [reflexivity|]. simpl. lia. }
    clear. intros st ev [HB (tm & Hf & Hd)] Hen.
    split; [by apply BasicInv_exec|].
    destruct ev as [m t o r|id| |m t o r|t|r]; cbn [exec].
    - exists tm. rewrite show_timers, show_now. split; [|done].
      rewrite sweep_filter_app; [done|].
      destruct (n_persistent _); repeat constructor. discriminate.
    - exists tm. by rewrite remove_filter.
    - exists tm. by rewrite clear_as_filter.
    - exists tm. unfold showQueued. cbn [fst].
      destruct (negb (isProcessing _)); [|done].
      match goal with
      | |- context [processQueue r ?s] =>
          destruct (processQueue_timers r s) as (-> & l & -> & Hl)
      end.
      rewrite sweep_filter_app by done. done.
    - exists tm. simpl. split; [done|].
      simpl in Hen. apply andb_prop in Hen as [Hle _]. apply Z.leb_le in Hle. lia.
    - simpl in Hen. destruct (earliest (timers st)) as [tm0|] eqn:He; [|done].
      apply earliest_elem in He. unfold run_callback.
      destruct (callback tm0) as [|id|p id] eqn:Hcb.
      + assert (tm0 = tm) as ->.
        { assert (tm0 ∈ filter is_sweep (timers st)) as Hin
            by (by apply list_elem_of_filter).
          rewrite Hf in Hin. by apply list_elem_of_singleton in Hin. }
        eexists. unfold setTimeout. cbn [timers set_timers now].
        rewrite cleanupExpired_as_filter. cbn [timers now set_notifications set_timers].
        rewrite filter_app, filter_drop_timer_same by done.
        rewrite Hf. simpl. rewrite decide_True by done. simpl.
        split; [reflexivity|]. simpl. lia.
      + exists tm. rewrite remove_filter. cbn [timers now set_notifications set_timers].
        rewrite filter_drop_timer_other; [done|]. unfold is_sweep. by rewrite Hcb.
      + exists tm.
        match goal with
        | |- context [processQueue r ?s] =>
            destruct (processQueue_timers r s) as (-> & l & -> & Hl)
        end.
        rewrite sweep_filter_app by done. cbn [timers now emit set_timers].
        rewrite filter_drop_timer_other; [done|]. unfold is_sweep. by rewrite Hcb. }
  exists tm. split; [done|]. split; [|done].
  pose proof (inv_due _ HB) as Hall. rewrite Forall_forall in Hall.
  apply Hall.
  assert (tm ∈ filter is_sweep (timers st)) as Hin by (rewrite Hf; left).
  by apply list_elem_of_filter in Hin as [_ Hin].
Qed.

Lemma sweep_always_armed_witness :
  exists st tm,
    Notifications.run
      [Notifications.EShow "a" "info" Notifications.no_options "r1";
       Notifications.ETick 1001; Notifications.EFire ""; Notifications.EClear]
      (Notifications.new 1) = Some st /\
    filter NotificationsMore.is_sweep (Notifications.timers st) = [tm] /\
    Notifications.now st <= Notifications.due tm <= Notifications.now st + 1000.
Proof.
  eexists.
  assert (exists st, Notifications.run
      [Notifications.EShow "a" "info" Notifications.no_options "r1";
       Notifications.ETick 1001; Notifications.EFire ""; Notifications.EClear]
      (Notifications.new 1) = Some st) as [st Hrun]
    by (eexists; vm_compute; reflexivity).
  destruct (sweep_always_armed 1 _ st ltac:(lia) Hrun) as (tm & Hf & Hd).
  exists tm. pose proof Hrun as Hst. vm_compute in Hst. injection Hst as Hst.
  split; [rewrite Hrun; f_equal; symmetry; exact Hst|].
  rewrite Hst. done.
Defined.

(** X6. [loading] always creates a persistent notification, whatever the
    options say, never arms its removal, and the notification it created
    is live until the handle is closed; closing removes it. *)
Theorem loading_is_persistent (message : option string)
    (options : Notifications.Options) (rnd : string) (st : Notifications.State) :
  let n :=
    Notifications.make_notification (default "Loading..." message) "info"
      (NotificationsMore.with_persistent options) rnd (Notifications.now st) in
  Notifications.n_persistent n = true /\
  Notifications.notifications (NotificationsMore.loading message options rnd st).1
    = Notifications.notifications st ++ [n] /\
  Notifications.timers (NotificationsMore.loading message options rnd st).1
    = Notifications.timers st /\
  (NotificationsMore.loading message options rnd st).2 = Notifications.n_id n /\
  n ∉ Notifications.notifications
        (NotificationsMore.handle_close
           (NotificationsMore.loading message options rnd st).2
           (NotificationsMore.loading message options rnd st).1).
Proof.
  intros n. unfold loading, handle_close.
  split; [done|]. split; [apply show_notifications|].
  split; [rewrite show_timers; apply app_nil_r|]. split; [done|].
  rewrite remove_filter. unfold set_notifications at 1. cbn [notifications].
  intros Hin. apply list_elem_of_filter in Hin as [Hne _]. by apply Hne.
Qed.

(** X7. [showMultiple] shows every element of its array, in order, each
    with the defaults of [show] for an absent type or options; the
    notifications already live stay in front. *)
Theorem showMultiple_appends (l : list NotificationsMore.Multiple)
    (st : Notifications.State) :
  Notifications.notifications (NotificationsMore.showMultiple l st)
    = Notifications.notifications st
        ++ map (NotificationsMore.multiple_notification (Notifications.now st)) l /\
  Notifications.now (NotificationsMore.showMultiple l st) = Notifications.now st /\
  Notifications.queue (NotificationsMore.showMultiple l st) = Notifications.queue st.
Proof.
  unfold showMultiple. revert st.
  induction l as [|x l IH]; intros st; cbn [fold_left map].
  - by rewrite app_nil_r.
  - destruct (IH (show (mu_message x) (default "info" (mu_type x))
                    (default no_options (mu_options x)) (mu_rnd x) st).1)
      as (Hn & Hnow & Hq).
    rewrite Hn, Hnow, Hq, show_notifications, show_now, show_queue, <- app_assoc.
    done.
Qed.

End SweepTimer.

(** ** Position and theme of the container *)

Section PresentationFacts.

Import Presentation.

Lemma find_app_none {A} (f : A -> bool) (l1 l2 : list A) :
  List.find f l1 = None -> List.find f (l1 ++ l2) = List.find f l2.
Proof.
  induction l1 as [|x l1 IH]; simpl; [done|]. destruct (f x); [discriminate|auto].
Qed.

Lemma find_app_some {A} (f : A -> bool) (l1 l2 : list A) (x : A) :
  List.find f l1 = Some x -> List.find f (l1 ++ l2) = Some x.
Proof.
  induction l1 as [|y l1 IH]; simpl; [discriminate|]. destruct (f y); auto.
Qed.

Lemma find_filter_irrelevant {A} (f : A -> bool) (P : A -> Prop)
    `{!forall x, Decision (P x)} (l : list A) :
  (forall x, x ∈ l -> f x = true -> P x) ->
  List.find f (filter P l) = List.find f l.
Proof.
  induction l as [|x l IH]; intros Hall; [done|].
  rewrite filter_cons. simpl.
  assert (List.find f (filter P l) = List.find f l) as IH'
    by (apply IH; intros y Hy; apply Hall; by right).
  destruct (f x) eqn:Hfx.
  - rewrite decide_True by (apply Hall; [left|done]). simpl. by rewrite Hfx.
  - destruct (decide (P x)); simpl; rewrite ?Hfx; done.
Qed.

Lemma find_none_iff {A} (f : A -> bool) (l : list A) :
  (forall x, x ∈ l -> f x = false) -> List.find f l = None.
Proof.
  induction l as [|x l IH]; intros Hall; simpl; [done|].
  rewrite (Hall x) by left. apply IH. intros y Hy. apply Hall. by right.
Qed.

(** X8. [setPosition] with one of the six positions makes
    [getCurrentPosition] return it, and resets the theme to the default
    (assigning [className] drops the theme class); with any other value it
    changes nothing; without an argument it selects the top right. *)
Theorem position_round_trip (p : string) (cls : Presentation.ClassList) :
  (p ∈ Presentation.positions ->
     Presentation.getCurrentPosition (Presentation.setPosition (Some p) cls) = p /\
     Presentation.getCurrentTheme (Presentation.setPosition (Some p) cls) = "light") /\
  (p ∉ Presentation.positions -> Presentation.setPosition (Some p) cls = cls) /\
  Presentation.getCurrentPosition (Presentation.setPosition None cls) = "top-right".
Proof.
  split; [|split].
  - intros Hp. unfold setPosition. simpl default.
    rewrite bool_decide_eq_true_2 by done. split; reflexivity.
  - intros Hp. unfold setPosition. simpl default.
    by rewrite bool_decide_eq_false_2.
  - reflexivity.
Qed.

Lemma position_round_trip_witness :
  Presentation.getCurrentPosition
    (Presentation.setPosition (Some "bottom-left") ["notifications-container"; "theme-dark"])
    = "bottom-left" /\
  Presentation.setPosition (Some "middle") ["notifications-container"; "theme-dark"]
    = ["notifications-container"; "theme-dark"].
Proof.
  pose proof (position_round_trip "bottom-left" ["notifications-container"; "theme-dark"])
    as (H1 & _ & _).
  pose proof (position_round_trip "middle" ["notifications-container"; "theme-dark"])
    as (_ & H2 & _).
  split.
  - apply H1. by_compute.
  - apply H2. by_compute.
Defined.

Lemma no_theme_after_remove cls :
  only_builtin_themes cls ->
  forall c, c ∈ classList_remove ["theme-light"; "theme-dark"] cls ->
            startsWith "theme-" c = false.
Proof.
  intros Hb c [Hnot Hc]%list_elem_of_filter.
  unfold only_builtin_themes in Hb. rewrite Forall_forall in Hb.
  destruct (startsWith "theme-" c) eqn:Hs; [|done].
  exfalso. apply Hnot. destruct (Hb c Hc Hs) as [->| ->]; [left|right; left].
Qed.

Lemma theme_token_ok t :
  has_whitespace t = false ->
  String.eqb ("theme-" +:+ t) "" = false /\ has_whitespace ("theme-" +:+ t) = false.
Proof. intros H. split; [done|]. simpl. exact H. Qed.

Lemma position_of_removed cls :
  List.find (startsWith "position-") (classList_remove ["theme-light"; "theme-dark"] cls)
  = List.find (startsWith "position-") cls.
Proof.
  apply find_filter_irrelevant. intros c _ Hc Hin.
  apply elem_of_cons in Hin as [->|Hin]; [discriminate|].
  apply elem_of_cons in Hin as [->|Hin]; [discriminate|].
  by apply elem_of_nil in Hin.
Qed.

(** X9. On a class list whose theme classes are the built-in ones,
    [setTheme] with a theme free of whitespace succeeds, makes
    [getCurrentTheme] return that theme and leaves the position alone. *)
Theorem theme_round_trip (t : string) (cls : Presentation.ClassList) :
  Presentation.has_whitespace t = false ->
  Presentation.only_builtin_themes cls ->
  exists cls',
    Presentation.setTheme (Some t) cls = Normal cls' /\
    Presentation.getCurrentTheme cls' = t /\
    Presentation.getCurrentPosition cls' = Presentation.getCurrentPosition cls.
Proof.
  intros Hws Hb. unfold setTheme, classList_add. simpl default.
  destruct (theme_token_ok t Hws) as [-> ->].
  set (rest := classList_remove ["theme-light"; "theme-dark"] cls).
  pose proof (no_theme_after_remove cls Hb) as Hnone. fold rest in Hnone.
  rewrite bool_decide_eq_false_2.
  2:{ intros Hin. apply Hnone in Hin. simpl in Hin. discriminate. }
  eexists. split; [reflexivity|]. split.
  - unfold getCurrentTheme.
    rewrite find_app_none by (by apply find_none_iff). reflexivity.
  - unfold getCurrentPosition.
    assert (List.find (startsWith "position-") (rest ++ ["theme-" +:+ t])
            = List.find (startsWith "position-") cls) as ->; [|done].
    rewrite <- (position_of_removed cls). fold rest.
    destruct (List.find (startsWith "position-") rest) as [c|] eqn:Hf.
    + by rewrite (find_app_some _ _ _ _ Hf).
    + by rewrite find_app_none.
Qed.

Lemma theme_round_trip_witness :
  exists cls',
    Presentation.setTheme (Some "dark")
      ["notifications-container"; "position-top-left"; "theme-light"] = Normal cls' /\
    Presentation.getCurrentTheme cls' = "dark" /\
    Presentation.getCurrentPosition cls' =
      Presentation.getCurrentPosition
        ["notifications-container"; "position-top-left"; "theme-light"].
Proof.
  apply theme_round_trip.
  - reflexivity.
  - repeat apply Forall_cons_2; try apply Forall_nil_2; simpl; try discriminate.
    intros _. by left.
Defined.

Lemma classList_remove_app tokens l1 l2 :
  classList_remove tokens (l1 ++ l2)
  = classList_remove tokens l1 ++ classList_remove tokens l2.
Proof. apply filter_app. Qed.

(** X10. A custom theme sticks: once a theme other than light and dark has
    been set, a later [setTheme] leaves its class in front of the new one,
    and [getCurrentTheme] keeps returning the custom theme. *)
Theorem custom_theme_sticks (t1 t2 : string) (cls : Presentation.ClassList) :
  Presentation.has_whitespace t1 = false ->
  Presentation.has_whitespace t2 = false ->
  t1 <> "light" -> t1 <> "dark" ->
  Presentation.only_builtin_themes cls ->
  exists c1 c2,
    Presentation.setTheme (Some t1) cls = Normal c1 /\
    Presentation.setTheme (Some t2) c1 = Normal c2 /\
    Presentation.getCurrentTheme c2 = t1.
Proof.
  intros Hw1 Hw2 Hl Hd Hb.
  set (rest := classList_remove ["theme-light"; "theme-dark"] cls).
  pose proof (no_theme_after_remove cls Hb) as Hnone. fold rest in Hnone.
  exists (rest ++ ["theme-" +:+ t1]).
  assert (setTheme (Some t1) cls = Normal (rest ++ ["theme-" +:+ t1])) as H1.
  { unfold setTheme, classList_add. simpl default.
    destruct (theme_token_ok t1 Hw1) as [-> ->]. fold rest.
    rewrite bool_decide_eq_false_2; [done|].
    intros Hin. apply Hnone in Hin. simpl in Hin. discriminate. }
  assert (classList_remove ["theme-light"; "theme-dark"] (rest ++ ["theme-" +:+ t1])
          = rest ++ ["theme-" +:+ t1]) as Hrem.
  { apply filter_keeps_all. intros c Hc Hin.
    apply elem_of_app in Hc as [Hc|Hc].
    - apply Hnone in Hc.
      apply elem_of_cons in Hin as [->|Hin]; [discriminate|].
      apply elem_of_cons in Hin as [->|Hin]; [discriminate|].
      by apply elem_of_nil in Hin.
    - apply list_elem_of_singleton in Hc. subst c.
      apply elem_of_cons in Hin as [Heq|Hin].
      + simpl in Heq. injection Heq as Heq. by apply Hl.
      + apply elem_of_cons in Hin as [Heq|Hin]; [|by apply elem_of_nil in Hin].
        simpl in Heq. injection Heq as Heq. by apply Hd. }
  assert (forall l, List.find (startsWith "theme-") ((rest ++ ["theme-" +:+ t1]) ++ l)
                    = Some ("theme-" +:+ t1)) as Hfind.
  { intros l. rewrite <- app_assoc.
    rewrite find_app_none by (by apply find_none_iff). reflexivity. }
  unfold setTheme at 2, classList_add. simpl default.
  destruct (theme_token_ok t2 Hw2) as [-> ->]. rewrite Hrem.
  destruct (bool_decide _); eexists; (split; [exact H1|]); (split; [reflexivity|]);
    unfold getCurrentTheme.
  - rewrite <- (app_nil_r (rest ++ _)), Hfind. reflexivity.
  - rewrite Hfind. reflexivity.
Qed.

Lemma custom_theme_sticks_witness :
  exists c1 c2,
    Presentation.setTheme (Some "sepia") ["notifications-container"] = Normal c1 /\
    Presentation.setTheme (Some "light") c1 = Normal c2 /\
    Presentation.getCurrentTheme c2 = "sepia".
Proof.
  apply custom_theme_sticks; try reflexivity; try discriminate.
  repeat apply Forall_cons_2; try apply Forall_nil_2; simpl; discriminate.
Defined.

Lemma strip_prefix_no_whitespace p s r :
  strip_prefix p s = Some r -> has_whitespace s = false -> has_whitespace r = false.
Proof.
  revert s. induction p as [|a p IH]; intros s; simpl.
  - by intros [= <-].
  - destruct s as [|b s]; [discriminate|]. destruct (Ascii.eqb a b); [|discriminate].
    intros Hs Hw. simpl in Hw. apply orb_false_iff in Hw as [_ Hw]. eauto.
Qed.

Lemma replace_first_no_whitespace p s :
  has_whitespace s = false -> has_whitespace (replace_first p s) = false.
Proof.
  induction s as [|c s IH]; intros Hw.
  - simpl. destruct (strip_prefix p "") eqn:Hs; [|done].
    by apply (strip_prefix_no_whitespace p "").
  - cbn [replace_first]. destruct (strip_prefix p (String c s)) eqn:Hs.
    + by apply (strip_prefix_no_whitespace p (String c s)).
    + simpl in *. apply orb_false_iff in Hw as [-> Hw]. simpl. auto.
Qed.

(** X11. Exporting the settings and importing them back keeps the position
    and the theme that the getters report, when the class tokens are free
    of whitespace, the current position is one of the six and the current
    theme is not the empty string. *)
Theorem settings_round_trip (cls : Presentation.ClassList)
    (ns : list Notifications.Notification) :
  Forall (fun c => Presentation.has_whitespace c = false) cls ->
  Presentation.getCurrentPosition cls ∈ Presentation.positions ->
  Presentation.getCurrentTheme cls <> "" ->
  exists cls',
    Presentation.importSettings (Presentation.exportSettings cls ns) cls = Normal cls' /\
    Presentation.getCurrentPosition cls' = Presentation.getCurrentPosition cls /\
    Presentation.getCurrentTheme cls' = Presentation.getCurrentTheme cls.
Proof.
  intros Hws Hpos Htheme.
  set (p := getCurrentPosition cls) in *. set (t := getCurrentTheme cls) in *.
  assert (has_whitespace t = false) as Hwt.
  { subst t. unfold getCurrentTheme.
    destruct (List.find (startsWith "theme-") cls) as [c|] eqn:Hf; [|done].
    apply replace_first_no_whitespace. apply List.find_some in Hf as [Hin _].
    rewrite Forall_forall in Hws. apply Hws. by apply list_elem_of_In. }
  assert (truthy (Some p) = true) as Htp.
  { simpl. apply negb_true_iff, String.eqb_neq. intros Hp. rewrite Hp in Hpos.
    revert Hpos. by_compute. }
  assert (truthy (Some t) = true) as Htt
    by (simpl; by apply negb_true_iff, String.eqb_neq).
  unfold importSettings, exportSettings. cbn [s_position s_theme]. fold p t.
  rewrite Htp, Htt.
  unfold setPosition. simpl default. rewrite bool_decide_eq_true_2 by done.
  unfold setTheme, classList_add. simpl default.
  destruct (theme_token_ok t Hwt) as [-> ->].
  assert (classList_remove ["theme-light"; "theme-dark"]
            ["notifications-container"; "position-" +:+ p]
          = ["notifications-container"; "position-" +:+ p]) as ->.
  { apply filter_keeps_all. intros c Hc Hin.
    assert (startsWith "theme-" c = true) as Hs.
    { apply elem_of_cons in Hin as [->|Hin]; [done|].
      apply elem_of_cons in Hin as [->|Hin]; [done|].
      by apply elem_of_nil in Hin. }
    apply elem_of_cons in Hc as [->|Hc]; [discriminate|].
    apply list_elem_of_singleton in Hc as ->. discriminate. }
  rewrite bool_decide_eq_false_2.
  2:{ intros Hin. apply elem_of_cons in Hin as [Heq|Hin]; [discriminate|].
      apply elem_of_cons in Hin as [Heq|Hin]; [discriminate|].
      by apply elem_of_nil in Hin. }
  eexists. split; [reflexivity|]. split; reflexivity.
Qed.

Lemma settings_round_trip_witness :
  exists cls',
    Presentation.importSettings
      (Presentation.exportSettings
         ["notifications-container"; "theme-sepia"; "theme-light"] [])
      ["notifications-container"; "theme-sepia"; "theme-light"] = Normal cls' /\
    Presentation.getCurrentPosition cls' = "top-right" /\
    Presentation.getCurrentTheme cls' = "sepia".
Proof.
  apply (settings_round_trip ["notifications-container"; "theme-sepia"; "theme-light"] []).
  - repeat constructor.
  - by_compute.
  - discriminate.
Defined.

End PresentationFacts.

(** ** Reconnection delays *)

Section ReconnectFacts.

Import Reconnect.

Lemma closes_exhausted (n a : nat) :
  (maxReconnectAttempts <= a)%nat -> closes n a = (a, []).
Proof.
  intros Ha. induction n as [|n IH]; [done|].
  cbn [closes]. unfold attemptReconnect.
  destruct (Nat.leb_spec maxReconnectAttempts a) as [_|Hlt]; [exact IH|lia].
Qed.

Lemma closes_S (n a a1 : nat) (d : Z) :
  attemptReconnect a = (a1, Some d) ->
  closes (S n) a = ((closes n a1).1, d :: (closes n a1).2).
Proof. intros H. cbn [closes]. rewrite H. by destruct (closes n a1). Qed.

(** X12. After the socket has opened, [n] closes in a row schedule the
    reconnections after 2, 4, 8, 16 and 30 seconds and then no more: the
    counter stops at five, and every delay lies between 2000 and 30000
    milliseconds. *)
Theorem reconnect_delays (n : nat) (wsReconnectAttempts : nat) :
  Reconnect.closes n (Reconnect.onopen wsReconnectAttempts)
    = (Nat.min n 5, take n [2000; 4000; 8000; 16000; 30000]) /\
  (forall a a' d, Reconnect.attemptReconnect a = (a', Some d) ->
     (a < Reconnect.maxReconnectAttempts)%nat /\ a' = S a /\ 2000 <= d <= 30000).
Proof.
  split.
  - unfold onopen.
    do 5 (destruct n as [|n]; [reflexivity|]).
    rewrite (closes_S _ 0 1 2000), (closes_S _ 1 2 4000), (closes_S _ 2 3 8000),
      (closes_S _ 3 4 16000), (closes_S _ 4 5 30000) by reflexivity.
    rewrite closes_exhausted by (unfold maxReconnectAttempts; lia).
    cbn [fst snd Nat.min take]. by destruct n.
  - intros a a' d. unfold attemptReconnect.
    destruct (Nat.leb_spec maxReconnectAttempts a) as [|Hlt]; [discriminate|].
    intros [= <- <-]. split; [exact Hlt|]. split; [done|].
    split; [|apply Z.le_min_r].
    apply Z.min_glb; [|lia].
    assert (2 ^ 1 <= 2 ^ Z.of_nat (S a)) by (apply Z.pow_le_mono_r; lia).
    lia.
Qed.

Lemma reconnect_delays_witness :
  Reconnect.closes 7 (Reconnect.onopen 3)
    = (5%nat, [2000; 4000; 8000; 16000; 30000]) /\
  (2 < Reconnect.maxReconnectAttempts)%nat /\ 2000 <= 8000 <= 30000.
Proof.
  destruct (reconnect_delays 7 3) as [H1 H2]. split; [exact H1|].
  destruct (H2 2%nat 3%nat 8000) as (Ha & _ & Hd); [by vm_compute|].
  split; [exact Ha|exact Hd].
Defined.

End ReconnectFacts.

(** ** Relative time *)

Section RelativeTimeFacts.

Import RelativeTime.

Lemma fits_iff (d s : Z) : 0 < s -> (1 <=? d / s) = true <-> s <= d.
Proof.
  intros Hs. rewrite Z.leb_le. split; intros H.
  - pose proof (Z.mul_div_le d s Hs). nia.
  - apply Z.div_le_lower_bound; lia.
Qed.

(** X13. The interval that [formatRelativeTime] reports is the largest
    one that fits into the difference, and the count is the number of
    whole intervals, at least one; nothing fits, and the text is Just now,
    exactly when the difference is under one second, a date in the future
    included. *)
Theorem first_interval_largest_fit (diffInSeconds : Z) :
  (diffInSeconds < 1 ->
     RelativeTime.first_interval RelativeTime.intervals diffInSeconds = None) /\
  (1 <= diffInSeconds ->
     exists count label seconds,
       RelativeTime.first_interval RelativeTime.intervals diffInSeconds
         = Some (count, label) /\
       (label, seconds) ∈ RelativeTime.intervals /\
       1 <= count /\
       count * seconds <= diffInSeconds < (count + 1) * seconds /\
       forall label' seconds', (label', seconds') ∈ RelativeTime.intervals ->
         seconds < seconds' -> diffInSeconds < seconds').
Proof.
  assert (forall l pre,
    intervals = pre ++ l ->
    Forall (fun i => diffInSeconds < i.2) pre ->
    (diffInSeconds < 1 -> Forall (fun i => 1 <= i.2) l ->
       first_interval l diffInSeconds = None) /\
    (1 <= diffInSeconds -> (exists i, i ∈ l /\ i.2 <= diffInSeconds) ->
       exists count label seconds,
         first_interval l diffInSeconds = Some (count, label) /\
         (label, seconds) ∈ l /\ 1 <= count /\
         count * seconds <= diffInSeconds < (count + 1) * seconds /\
         forall label' seconds', (label', seconds') ∈ intervals ->
           seconds < seconds' -> diffInSeconds < seconds')) as Hgen.
  { assert (Forall (fun i => 0 < i.2) intervals) as Hpos
      by (repeat apply Forall_cons_2; try apply Forall_nil_2; done).
    assert (forall pre i l, intervals = pre ++ i :: l ->
              Forall (fun j => j.2 <= i.2) (i :: l)) as Hsorted.
    { intros pre i l Heq.
      do 7 (destruct pre as [|? pre];
            [injection Heq as <- <-;
             repeat apply Forall_cons_2; try apply Forall_nil_2; simpl; lia|
             injection Heq as <- Heq]).
      by destruct pre. }
    induction l as [|[label seconds] l IH]; intros pre Heq Hpre.
    - split; [done|]. intros _ (i & Hi & _). by apply elem_of_nil in Hi.
    - assert (0 < seconds) as Hs.
      { rewrite Heq in Hpos. apply Forall_app in Hpos as [_ Hpos].
        by apply Forall_cons in Hpos as [Hpos _]. }
      cbn [first_interval].
      destruct (1 <=? diffInSeconds / seconds) eqn:Hfit.
      + apply fits_iff in Hfit; [|done]. split.
        * intros Hlt Hall. apply Forall_cons in Hall as [Hone _]. simpl in Hone. lia.
        * intros _ _. exists (diffInSeconds / seconds), label, seconds.
          split; [done|]. split; [left|]. split; [apply Z.div_le_lower_bound; lia|].
          split.
          { pose proof (Z.mul_div_le diffInSeconds seconds Hs).
            pose proof (Z.mul_succ_div_gt diffInSeconds seconds Hs). lia. }
          intros label' seconds' Hin Hlt. rewrite Heq in Hin.
          apply elem_of_app in Hin as [Hin|Hin].
          { rewrite Forall_forall in Hpre. apply (Hpre _ Hin). }
          pose proof (Hsorted pre _ _ Heq) as Hle. rewrite Forall_forall in Hle.
          apply Hle in Hin. simpl in Hin. lia.
      + assert (diffInSeconds < seconds) as Hlt.
        { destruct (Z.lt_ge_cases diffInSeconds seconds) as [|Hge]; [done|].
          apply (fits_iff _ _ Hs) in Hge. congruence. }
        destruct (IH (pre ++ [(label, seconds)])) as [IH1 IH2].
        { by rewrite <- app_assoc. }
        { apply Forall_app. split; [done|]. by apply Forall_singleton. }
        split.
        * intros Hd Hall. apply Forall_cons in Hall as [_ Hall]. auto.
        * intros Hd (i & Hi & Hle). apply elem_of_cons in Hi as [->|Hi]; [simpl in Hle; lia|].
          destruct IH2 as (count & lbl & secs & H1 & H2 & H3); [done|by exists i|].
          exists count, lbl, secs. split; [done|]. split; [by right|done]. }
  destruct (Hgen intervals [] eq_refl (Forall_nil_2 _)) as [H1 H2]. split.
  - intros Hd. apply H1; [done|].
    repeat apply Forall_cons_2; try apply Forall_nil_2; done.
  - intros Hd. apply H2; [done|]. exists ("second", 1). split; [|simpl; lia].
    by_compute.
Qed.

Lemma first_interval_largest_fit_witness :
  RelativeTime.first_interval RelativeTime.intervals (-3) = None /\
  exists count label seconds,
    RelativeTime.first_interval RelativeTime.intervals 200000 = Some (count, label) /\
    (label, seconds) ∈ RelativeTime.intervals /\
    1 <= count /\
    count * seconds <= 200000 < (count + 1) * seconds /\
    forall label' seconds', (label', seconds') ∈ RelativeTime.intervals ->
      seconds < seconds' -> 200000 < seconds'.
Proof.
  split.
  - apply (first_interval_largest_fit (-3)). lia.
  - apply (first_interval_largest_fit 200000). lia.
Defined.

(** X14. [formatRelativeTime] answers Just now for every date less than a
    second before the current instant, and for every later date. *)
Theorem just_now (now date : Z) :
  now - date < 1000 -> RelativeTime.formatRelativeTime now date = "Just now".
Proof.
  intros Hlt. unfold formatRelativeTime.
  assert ((now - date) / 1000 < 1) as Hd by (apply Z.div_lt_upper_bound; lia).
  revert Hd. generalize ((now - date) / 1000). intros d Hd.
  assert (first_interval intervals d = None) as ->; [|done].
  unfold intervals. cbn [first_interval].
  repeat match goal with
  | |- context [1 <=? d / ?s] =>
      destruct (Z.leb_spec 1 (d / s)) as [Hge|_];
      [exfalso; assert (d / s <= 0) by (apply Z.lt_succ_r, Z.div_lt_upper_bound; lia); lia|]
  end.
  reflexivity.
Qed.

Lemma just_now_witness :
  RelativeTime.formatRelativeTime 5000 4100 = "Just now" /\
  RelativeTime.formatRelativeTime 5000 9000 = "Just now".
Proof. split; apply just_now; lia. Defined.

End RelativeTimeFacts.

(** ** What every step of the client preserves *)

Section ApiClosure.

Import API.

Variable R : State -> State -> Prop.

Hypothesis R_refl : forall st, R st st.
Hypothesis R_trans : forall st1 st2 st3, R st1 st2 -> R st2 st3 -> R st1 st3.
Hypothesis R_settle_caller : forall p s st, R st (settle_caller p s st).
Hypothesis R_request_start : forall e o w st, R st (request_start e o w st).
Hypothesis R_push : forall e c r st,
  R st (set_requestQueue (requestQueue st ++ [mkItem e c (now st) r]) st).
Hypothesis R_notifications : forall n st, R st (set_notifications n st).

Lemma closed_notify level msg st st' : notify level msg st = Normal st' -> R st st'.
Proof.
  intros H. destruct (notify_fields _ _ _ _ H) as (n & -> & _). apply R_notifications.
Qed.

Lemma closed_swallow level msg st : R st (swallow (notify level msg st) st).
Proof.
  destruct (notify level msg st) as [st'|e] eqn:H; simpl; [|apply R_refl].
  by apply (closed_notify level msg).
Qed.

Lemma closed_drain_from (rest : list QueueItem) :
  Forall (fun it => forall w, q_resolver it = Some w -> forall s st, R st (resume w s st))
    rest ->
  forall st, R st (drain_loop rest st).
Proof.
  induction rest as [|it rest IH]; intros Hrest st; [apply R_refl|].
  apply Forall_cons in Hrest as [Hit Hrest].
  cbn [drain_loop]. destruct (fresh (now st) it); [apply R_request_start|].
  apply (R_trans _ (settle_item it expired st)); [|by apply IH].
  unfold settle_item. destruct (q_resolver it) as [w|] eqn:Hw; [by apply Hit|apply R_refl].
Qed.

Lemma closed_resume w : forall s st, R st (resume w s st).
Proof.
  induction w as [p|item rest Hitem Hrest] using Waiter_nested_ind; intros s st.
  - apply R_settle_caller.
  - rewrite resume_drain.
    apply (R_trans _ (settle_item item s st)); [|by apply closed_drain_from].
    unfold settle_item.
    destruct (q_resolver item) as [w|] eqn:Hw; [by apply Hitem|apply R_refl].
Qed.

Lemma closed_drain_loop queue st : R st (drain_loop queue st).
Proof.
  apply closed_drain_from. apply Forall_forall. intros it _ w _. apply closed_resume.
Qed.

Lemma closed_queueRequest e c w st : R st (queueRequest e c w st).
Proof.
  unfold queueRequest.
  destruct (notify "info" "Request queued. Will retry when online." st) as [st'|err] eqn:H.
  - apply (R_trans _ st'); [by apply (closed_notify _ _ _ _ H)|apply R_push].
  - eapply R_trans; [apply R_push|apply closed_resume].
Qed.

Lemma closed_after_try fl outcome st :
  R (request_try outcome st).1 (request_finish fl outcome st).
Proof.
  unfold request_finish. destruct (request_try outcome st) as [st1 [v|err]]; simpl.
  - apply closed_resume.
  - destruct (_ && _); [apply closed_queueRequest|apply closed_resume].
Qed.

Hypothesis R_authToken : forall st, R st (set_authToken None st).
Hypothesis R_redirect : forall st, R st (set_redirect_scheduled true st).

Lemma closed_notify_only level msg st : R st (notify_only level msg st).1.
Proof.
  unfold notify_only. destruct (notify level msg st) as [st'|e] eqn:H; simpl;
    [by apply (closed_notify level msg)|apply R_refl].
Qed.

Lemma closed_handleError r st : R st (handleError r st).1.
Proof.
  unfold handleError.
  destruct (if is_json (resp_contentType r) then _ else _) as [msg data].
  match goal with
  | |- context [if resp_status r =? 401 then ?a else ?b] =>
      set (h := if resp_status r =? 401 then a else b)
  end.
  assert (R st h.1) as Hh; [|clearbody h; destruct h as [s1 [u|e1]]; exact Hh].
  subst h.
  repeat (match goal with |- context [if ?c then _ else _] => destruct c end);
    try apply closed_notify_only; try apply R_refl.
  unfold handleUnauthorized, setAuthToken.
  destruct (notify _ _ _) as [st'|e] eqn:H; simpl; [|apply R_authToken].
  eapply R_trans; [apply R_authToken|].
  eapply R_trans; [apply (closed_notify _ _ _ _ H)|apply R_redirect].
Qed.

Lemma closed_request_try outcome st : R st (request_try outcome st).1.
Proof.
  unfold request_try. destruct outcome as [e|r]; [apply R_refl|].
  destruct (negb (resp_ok r)).
  - pose proof (closed_handleError r st) as H.
    destruct (handleError r st) as [st' [err|e]]; exact H.
  - destruct (is_json _); apply R_refl.
Qed.

Lemma closed_request_finish fl outcome st : R st (request_finish fl outcome st).
Proof.
  eapply R_trans; [apply closed_request_try|apply closed_after_try].
Qed.

Hypothesis R_clear : forall st, R st (set_requestQueue [] st).
Hypothesis R_isOnline : forall b st, R st (set_isOnline b st).




Hypothesis R_now : forall t st, now st <= t -> R st (set_now t st).
Hypothesis R_inflight : forall f st, R st (set_inflight (delete f (inflight st)) st).
Hypothesis R_next_promise : forall st, R st (set_next_promise (S (next_promise st)) st).



End ApiClosure.

Section ApiExtras.

Import API APIMore.

Lemma request_start_fields e o w st :
  exists fl,
    request_start e o w st =
      mkState (isOnline st) (requestQueue st) (authToken st) (notifications st)
        (Notifications_defined st) (redirect_scheduled st) (now st) fl
        (S (next_fetch st)) (settled st) (next_promise st)
        (log st ++ [ORequest e o; OFetch (next_fetch st) (url_of e)]).
Proof.
  eexists. unfold request_start, emit, set_next_fetch, set_inflight. cbn.
  rewrite <- app_assoc. reflexivity.
Qed.




Lemma handleError_token r st :
  (resp_status r = 401 -> authToken (handleError r st).1 = None) /\
  (resp_status r <> 401 -> authToken (handleError r st).1 = authToken st).
Proof.
  unfold handleError.
  destruct (if is_json (resp_contentType r) then _ else _) as [msg data].
  destruct (Z.eqb_spec (resp_status r) 401) as [H401|H401].
  - unfold handleUnauthorized, setAuthToken.
    destruct (notify _ _ _) as [st'|e] eqn:H; simpl; (split; [intros _|done]); [|done].
    by apply notify_fields in H as (n & -> & _).
  - match goal with
    | |- context [if resp_status r =? 403 then ?a else ?b] =>
        set (h := if resp_status r =? 403 then a else b)
    end.
    assert (authToken h.1 = authToken st) as Hh.
    { subst h. unfold handleForbidden, handleRateLimit, handleServerError, notify_only.
      repeat (match goal with |- context [if ?c then _ else _] => destruct c end);
        try done;
        match goal with
        | |- context [notify ?l ?m st] =>
            destruct (notify l m st) as [st'|e] eqn:H; [|done];
            by apply notify_fields in H as (n & -> & _)
        end. }
    clearbody h. destruct h as [s1 [u|e1]]; by split.
Qed.


Ltac field_closure :=
  first
    [ done
    | intros; congruence
    | let p := fresh "p" in let s := fresh "s" in let s0 := fresh "s" in
      intros p s s0; by destruct (settle_caller_fields p s s0) as (? & ? & ->)
    | let e := fresh "e" in let o := fresh "o" in let w := fresh "w" in
      let s0 := fresh "s" in
      intros e o w s0; by destruct (request_start_fields e o w s0) as [? ->] ].

Lemma same_token_after_try fl outcome st :
  authToken (request_finish fl outcome st) = authToken (request_try outcome st).1.
Proof.
  apply (closed_after_try (fun s s' => authToken s' = authToken s)); field_closure.
Qed.



Lemma same_redirect_after_try fl outcome st :
  redirect_scheduled (request_finish fl outcome st)
  = redirect_scheduled (request_try outcome st).1.
Proof.
  apply (closed_after_try (fun s s' => redirect_scheduled s' = redirect_scheduled s));
    field_closure.
Qed.

Lemma resp_ok_401 r : resp_status r = 401 -> resp_ok r = false.
Proof. unfold resp_ok. intros ->. reflexivity. Qed.

(** X17. A response with status 401 always clears the token.  The
    redirection to the login page is scheduled when the warning can be
    shown or no notification class is loaded; when the class is loaded but
    no manager is attached to the client, the warning throws and the
    redirection is never scheduled. *)
Theorem unauthorized_response (f : nat) (r : API.HttpResponse) (fl : API.Inflight)
    (st : API.State) :
  API.inflight st !! f = Some fl ->
  API.resp_status r = 401 ->
  let st' := API.exec (API.EFetchDone f (API.Response r)) st in
  API.authToken st' = None /\
  (API.Notifications_defined st = false \/ is_Some (API.notifications st) ->
     API.redirect_scheduled st' = true) /\
  (API.Notifications_defined st = true -> API.notifications st = None ->
     API.redirect_scheduled st' = API.redirect_scheduled st).
Proof.
  intros Hfl H401. cbn [exec]. rewrite Hfl. cbv zeta.
  rewrite same_token_after_try, same_redirect_after_try.
  set (st0 := set_inflight (delete f (inflight st)) st).
  unfold request_try. rewrite (resp_ok_401 r H401). cbn [negb].
  split.
  - destruct (handleError_token r st0) as [H1 _].
    destruct (handleError r st0) as [s1 [err|e]]; by apply H1.
  - unfold handleError.
    destruct (if is_json (resp_contentType r) then _ else _) as [msg data].
    rewrite H401. cbn [Z.eqb Pos.eqb].
    unfold handleUnauthorized, setAuthToken, notify. simpl.
    split.
    + intros [->|[calls ->]]; [done|]. by destruct (Notifications_defined st).
    + by intros -> ->.
Qed.

Lemma unauthorized_response_witness :
  exists st,
    API.run [API.ECall "/cart" Scenario.post] (API.new true (Some "tok") true 0)
      = Some st /\
    API.authToken (API.exec (API.EFetchDone 0 (API.Response APIMore.unauthorized)) st)
      = None /\
    API.redirect_scheduled
      (API.exec (API.EFetchDone 0 (API.Response APIMore.unauthorized)) st) = false.
Proof.
  eexists. split; [vm_compute; reflexivity|].
  match goal with
  | |- authToken (exec (EFetchDone _ (Response ?r)) ?s) = None /\ _ =>
      destruct (unauthorized_response 0 r
                  (mkInflight "/cart" Scenario.post (build_config s Scenario.post)
                     (WCaller 0)) s) as (Ht & _ & Hr);
      [vm_compute; reflexivity | reflexivity |]
  end.
  split; [exact Ht|]. rewrite Hr; reflexivity.
Defined.

(** *** The order of the buffer *)

Lemma queued_since_refl st : queued_since st st.
Proof. split; [done|]. exists []. by rewrite app_nil_r. Qed.

Lemma queued_since_trans s1 s2 s3 :
  queued_since s1 s2 -> queued_since s2 s3 -> queued_since s1 s3.
Proof.
  intros [Hn1 (l1 & Hq1 & Hl1)] [Hn2 (l2 & Hq2 & Hl2)]. split; [congruence|].
  exists (l1 ++ l2). split; [by rewrite Hq2, Hq1, app_assoc|].
  apply Forall_app. split; [done|]. by rewrite Hn1 in Hl2.
Qed.

Lemma queued_since_fields st st' :
  requestQueue st' = requestQueue st -> now st' = now st -> queued_since st st'.
Proof. intros Hq Hn. split; [done|]. exists []. by rewrite app_nil_r. Qed.

Lemma queued_since_request_finish fl outcome st :
  queued_since st (request_finish fl outcome st).
Proof.
  apply (closed_request_finish queued_since).
  - apply queued_since_refl.
  - apply queued_since_trans.
  - intros p s s0. destruct (settle_caller_fields p s s0) as (se & lg & ->).
    by apply queued_since_fields.
  - intros e o w s0. destruct (request_start_fields e o w s0) as [fl' ->].
    by apply queued_since_fields.
  - intros e c r s0. split; [done|]. eexists. split; [done|]. by apply Forall_singleton.
  - intros n s0. by apply queued_since_fields.
  - intros s0. by apply queued_since_fields.
  - intros s0. by apply queued_since_fields.
Qed.

Lemma queued_since_drain_loop queue st : queued_since st (drain_loop queue st).
Proof.
  apply (closed_drain_loop queued_since).
  - apply queued_since_refl.
  - apply queued_since_trans.
  - intros p s s0. destruct (settle_caller_fields p s s0) as (se & lg & ->).
    by apply queued_since_fields.
  - intros e o w s0. destruct (request_start_fields e o w s0) as [fl' ->].
    by apply queued_since_fields.
Qed.

Lemma queued_since_swallow level msg st :
  queued_since st (swallow (notify level msg st) st).
Proof.
  apply (closed_swallow queued_since); [apply queued_since_refl|].
  intros n s0. by apply queued_since_fields.
Qed.

Lemma sorted_snoc_block (l1 l2 : list Z) (t : Z) :
  StronglySorted Z.le l1 -> Forall (fun x => x <= t) l1 -> Forall (fun x => x = t) l2 ->
  StronglySorted Z.le (l1 ++ l2).
Proof.
  intros Hs Hle Ht. induction Hs as [|x l1 Hs IH Hx]; simpl.
  - induction Ht as [|y l2 -> Ht IH]; constructor; [done|].
    eapply Forall_impl; [exact Ht|]. intros z ->. lia.
  - apply Forall_cons in Hle as [Hxt Hle]. constructor; [by apply IH|].
    apply Forall_app. split; [done|].
    eapply Forall_impl; [exact Ht|]. intros z ->. exact Hxt.
Qed.

Lemma chronological_queued_since st st' :
  chronological st -> queued_since st st' -> chronological st'.
Proof.
  intros [Hs Hle] [Hn (l & Hq & Hl)]. unfold chronological. rewrite Hq, Hn. split.
  - rewrite fmap_app. apply (sorted_snoc_block _ _ (now st)); [done| |].
    + apply Forall_fmap. exact Hle.
    + apply Forall_fmap. exact Hl.
  - apply Forall_app. split; [done|].
    eapply Forall_impl; [exact Hl|]. intros it ->. simpl. lia.
Qed.

Lemma chronological_exec ev st :
  chronological st -> enabled ev st = true -> chronological (exec ev st).
Proof.
  intros Hc Hen. destruct ev as [e o|f outcome| | |t]; cbn [exec].
  - apply (chronological_queued_since st); [done|].
    unfold call_request. cbn [fst].
    destruct (request_start_fields e o (WCaller (next_promise st))
                (set_next_promise (S (next_promise st)) st)) as [fl ->].
    by apply queued_since_fields.
  - destruct (inflight st !! f) as [fl|]; [|done].
    apply (chronological_queued_since (set_inflight (delete f (inflight st)) st));
      [exact Hc|apply queued_since_request_finish].
  - unfold on_online.
    eapply chronological_queued_since; [|apply queued_since_swallow].
    unfold processQueue. destruct (_ || _); [exact Hc|].
    apply (chronological_queued_since (set_requestQueue [] (set_isOnline true st)));
      [|apply queued_since_drain_loop].
    split; simpl; constructor.
  - unfold on_offline.
    eapply chronological_queued_since; [|apply queued_since_swallow]. exact Hc.
  - destruct Hc as [Hs Hle]. split; [exact Hs|]. simpl in *.
    eapply Forall_impl; [exact Hle|]. intros it Hit. simpl in *. lia.
Qed.

(** X18. The buffer is always in the order in which its entries were
    queued: the timestamps never decrease from the front to the back, and
    none lies ahead of the clock.  So the entries that a drain finds too
    old are at the front of the buffer. *)
Theorem queue_is_chronological (onLine : bool) (token : option string)
    (loaded : bool) (t0 : Z) (evs : list API.Event) (st : API.State) :
  API.run evs (API.new onLine token loaded t0) = Some st ->
  APIMore.chronological st /\
  forall l1 item l2, API.requestQueue st = l1 ++ item :: l2 ->
    API.fresh (API.now st) item = false ->
    Forall (fun older => API.fresh (API.now st) older = false) l1.
Proof.
  intros Hrun.
  assert (chronological st) as Hc.
  { apply (api_run_invariant chronological (fun s ev => chronological_exec ev s) evs
             (new onLine token loaded t0) st); [|done].
    split; simpl; constructor. }
  split; [exact Hc|].
  intros l1 item l2 Hq Hold. destruct Hc as [Hs _]. rewrite Hq, fmap_app in Hs.
  clear Hq. induction l1 as [|a l1 IH]; [constructor|].
  simpl in Hs. apply StronglySorted_inv in Hs as [Hs Ha].
  constructor; [|by apply IH].
  apply Forall_app in Ha as [_ Ha]. simpl in Ha. apply Forall_cons in Ha as [Ha _].
  unfold fresh in *. apply Z.ltb_ge in Hold. apply Z.ltb_ge. lia.
Qed.

Lemma queue_is_chronological_witness :
  exists st,
    API.run Scenario.three_queued (API.new false (Some "tok") false 0) = Some st /\
    APIMore.chronological st /\
    q_timestamp <$> API.requestQueue st = [0; 0; 400000].
Proof.
  eexists. split; [vm_compute; reflexivity|].
  split; [|vm_compute; reflexivity].
  match goal with
  | |- chronological ?s =>
      apply (queue_is_chronological false (Some "tok") false 0 Scenario.three_queued s)
  end.
  vm_compute; reflexivity.
Defined.

(** *** Headers *)

Lemma get_set_header_eq k v h : get_header k (set_header k v h) = Some v.
Proof.
  unfold get_header, set_header.
  destruct (existsb _ h) eqn:Hex.
  - induction h as [|[k' v'] h IH]; [discriminate|]. simpl in *.
    destruct (String.eqb k' k) eqn:Hk; simpl.
    + by rewrite String.eqb_refl.
    + rewrite Hk. simpl in Hex. auto.
  - induction h as [|[k' v'] h IH]; simpl in *.
    + by rewrite String.eqb_refl.
    + apply orb_false_iff in Hex as [-> Hex]. auto.
Qed.

Lemma get_set_header_ne k k' v h :
  k' <> k -> get_header k' (set_header k v h) = get_header k' h.
Proof.
  intros Hne. apply String.eqb_neq in Hne as Hne'.
  assert (String.eqb k k' = false) as Hne'' by (by rewrite String.eqb_sym).
  unfold get_header, set_header. f_equal.
  destruct (existsb _ h).
  - induction h as [|[k0 v0] h IH]; [done|]. simpl.
    destruct (String.eqb k0 k) eqn:Hk; simpl.
    + apply String.eqb_eq in Hk as ->. by rewrite Hne''.
    + destruct (String.eqb k0 k'); [done|apply IH].
  - induction h as [|[k0 v0] h IH]; simpl.
    + by rewrite Hne''.
    + destruct (String.eqb k0 k'); [done|apply IH].
Qed.

(** X19. With a token, the configuration that [request] hands to [fetch]
    carries the bearer token in its Authorization header, whatever
    headers the caller gave, and every other header is the caller's, or
    the default one when the caller gave no headers; without a token the
    headers are exactly these. *)
Theorem authorization_header (st : API.State) (options : API.Config) :
  exists h,
    API.cfg_headers (API.build_config st options) = Some h /\
    (forall t, API.token_of st = Some t ->
       APIMore.get_header "Authorization" h = Some ("Bearer " +:+ t) /\
       forall k, k <> "Authorization" ->
         APIMore.get_header k h
         = APIMore.get_header k (default API.defaultHeaders (API.cfg_headers options))) /\
    (API.token_of st = None ->
       h = default API.defaultHeaders (API.cfg_headers options)).
Proof.
  unfold build_config, getAuthHeaders, with_authorization. cbn [cfg_headers].
  eexists. split; [reflexivity|]. split.
  - intros t Ht. rewrite Ht. split; [apply get_set_header_eq|].
    intros k Hk. rewrite get_set_header_ne by done.
    destruct (cfg_headers options); [done|]. simpl. by apply get_set_header_ne.
  - intros Ht. rewrite Ht. by destruct (cfg_headers options).
Qed.

Lemma authorization_header_witness :
  exists h,
    API.cfg_headers
      (API.build_config (API.new true (Some "tok") false 0)
         (API.mkConfig None None (Some [("Authorization", "Basic abc"); ("Accept", "*/*")])
            None)) = Some h /\
    APIMore.get_header "Authorization" h = Some "Bearer tok" /\
    APIMore.get_header "Accept" h = Some "*/*".
Proof.
  destruct (authorization_header (new true (Some "tok") false 0)
              (mkConfig None None (Some [("Authorization", "Basic abc"); ("Accept", "*/*")])
                 None)) as (h & Hh & Htok & _).
  exists h. split; [exact Hh|].
  destruct (Htok "tok" eq_refl) as [Ha Hother]. split; [exact Ha|].
  rewrite (Hother "Accept") by discriminate. reflexivity.
Defined.

End ApiExtras.

(** ** More on withRetry *)

Section RetryMoreFacts.

Import Retry RetryMore.

Context {S Value : Type}.
Variable fn : S -> S * Completion Value.








End RetryMoreFacts.



(** ** More on Utils.storage *)

Section StorageMore.

Context {Value Store : Type}.
Variable JSON_parse : string -> Completion Value.
Variable JSON_stringify : Value -> Completion (option string).
Variable getItem : Store -> string -> Completion (option string).
Variable setItem : Store -> string -> string -> Completion Store.
Variable removeItem : Store -> string -> Completion Store.

(** X22. What [storage.set] stores comes back from [storage.get] when the
    host stores the string and parses it back to the value.  A value that
    [JSON.stringify] refuses is stored as the text of an empty object, and
    [undefined] as the text undefined, and [set] still answers true; after
    [remove], [get] answers the fallback. *)
Theorem storage_round_trip (st st' : Store) (key : string) (value fallback : Value) :
  (forall s,
     JSON_stringify value = Normal (Some s) -> s <> "" ->
     setItem st key s = Normal st' ->
     getItem st' key = Normal (Some s) ->
     JSON_parse s = Normal value ->
     Utils.storage_set JSON_stringify setItem st key value = Normal (st', true) /\
     Utils.storage_get JSON_parse getItem st' key fallback = Normal value) /\
  (forall e,
     JSON_stringify value = Throw e ->
     setItem st key "{}" = Normal st' ->
     Utils.storage_set JSON_stringify setItem st key value = Normal (st', true)) /\
  (JSON_stringify value = Normal None ->
   setItem st key "undefined" = Normal st' ->
   Utils.storage_set JSON_stringify setItem st key value = Normal (st', true)) /\
  (removeItem st key = Normal st' ->
   getItem st' key = Normal None ->
   Utils.storage_remove removeItem st key = Normal (st', true) /\
   Utils.storage_get JSON_parse getItem st' key fallback = Normal fallback).
Proof.
  split; [|split; [|split]].
  - intros s Hs Hne Hset Hget Hparse. split.
    + unfold Utils.storage_set, Utils.stringifyJSON. rewrite Hs. simpl. by rewrite Hset.
    + unfold Utils.storage_get, Utils.parseJSON. rewrite Hget. simpl.
      apply String.eqb_neq in Hne. rewrite Hne. simpl. by rewrite Hparse.
  - intros e He Hset. unfold Utils.storage_set, Utils.stringifyJSON. rewrite He. simpl.
    by rewrite Hset.
  - intros Hs Hset. unfold Utils.storage_set, Utils.stringifyJSON. rewrite Hs. simpl.
    by rewrite Hset.
  - intros Hrem Hget. split.
    + unfold Utils.storage_remove. by rewrite Hrem.
    + unfold Utils.storage_get. by rewrite Hget.
Qed.

End StorageMore.

Lemma storage_round_trip_witness :
  let empty := Utils.Build_MemStore ∅ false 100 in
  let full := Utils.Build_MemStore {["seen" := "true"]} false 100 in
  Utils.storage_set Utils.toy_stringify Utils.ms_setItem empty "seen" (Utils.JBool true)
    = Normal (full, true) /\
  Utils.storage_get Utils.toy_parse Utils.ms_getItem full "seen" Utils.JNull
    = Normal (Utils.JBool true) /\
  Utils.storage_set Utils.toy_stringify Utils.ms_setItem empty "seen" Utils.JUndefined
    = Normal (Utils.Build_MemStore {["seen" := "undefined"]} false 100, true) /\
  Utils.storage_get Utils.toy_parse Utils.ms_getItem empty "seen" (Utils.JBool false)
    = Normal (Utils.JBool false).
Proof.
  intros empty full.
  destruct (storage_round_trip Utils.toy_parse Utils.toy_stringify Utils.ms_getItem
              Utils.ms_setItem Utils.ms_removeItem empty full "seen"
              (Utils.JBool true) Utils.JNull) as (Hrt & _ & _ & _).
  destruct (Hrt "true") as [H1 H2]; try (vm_compute; reflexivity); [discriminate|].
  destruct (storage_round_trip Utils.toy_parse Utils.toy_stringify Utils.ms_getItem
              Utils.ms_setItem Utils.ms_removeItem empty
              (Utils.Build_MemStore {["seen" := "undefined"]} false 100) "seen"
              Utils.JUndefined Utils.JNull) as (_ & _ & Hundef & _).
  destruct (storage_round_trip Utils.toy_parse Utils.toy_stringify Utils.ms_getItem
              Utils.ms_setItem Utils.ms_removeItem full empty "seen"
              Utils.JNull (Utils.JBool false)) as (_ & _ & _ & Hrem).
  split; [exact H1|]. split; [exact H2|].
  split; [apply Hundef; vm_compute; reflexivity|].
  apply Hrem; vm_compute; reflexivity.
Defined.

(** ** Utils.generateUUID *)

Section UUIDFacts.

Import UUID.

Lemma variant_digit (r : Z) :
  hex_digit (Z.lor (Z.land r 3) 8) ∈ ["8"; "9"; "a"; "b"]%char.
Proof.
  assert (0 <= Z.land r 3 < 4) as Hb.
  { change 3 with (Z.ones 2). rewrite Z.land_ones by lia. apply Z.mod_pos_bound. lia. }
  assert (Z.land r 3 = 0 \/ Z.land r 3 = 1 \/ Z.land r 3 = 2 \/ Z.land r 3 = 3)
    as [Hr | [Hr | [Hr | Hr]]] by lia; rewrite Hr; by_compute.
Qed.

Lemma hex_digit_is_hex (v : Z) : is_hex (hex_digit v) = true.
Proof.
  unfold hex_digit.
  destruct v as [|p|p]; try reflexivity.
  do 4 (destruct p as [p|p|]; try reflexivity).
Qed.

(** X23. Whatever the random draws, [generateUUID] returns 36 characters
    with dashes at positions 8, 13, 18 and 23, the version digit 4 at
    position 14, one of 8, 9, a, b at position 19, and hexadecimal digits
    everywhere else. *)
Theorem generateUUID_layout (rnd : nat -> Z) :
  let u := UUID.generateUUID rnd in
  String.length u = 36%nat /\
  (forall i, i ∈ [8; 13; 18; 23]%nat -> String.get i u = Some "-"%char) /\
  String.get 14 u = Some "4"%char /\
  (exists c, String.get 19 u = Some c /\ c ∈ ["8"; "9"; "a"; "b"]%char) /\
  (forall i c, String.get i u = Some c -> i ∉ [8; 13; 18; 23]%nat ->
     UUID.is_hex c = true).
Proof.
  cbv zeta. unfold generateUUID, template. cbn [replace_xy Ascii.eqb Bool.eqb].
  split; [reflexivity|]. split; [|split; [reflexivity|split]].
  - intros i Hi. repeat (apply elem_of_cons in Hi as [->|Hi]; [reflexivity|]).
    by apply elem_of_nil in Hi.
  - eexists. split; [reflexivity|]. apply variant_digit.
  - intros i c Hget Hi.
    do 36 (destruct i as [|i];
           [first [ exfalso; apply Hi; by_compute
                  | injection Hget as <-; first [apply hex_digit_is_hex|reflexivity] ]|]).
    discriminate.
Qed.

Lemma generateUUID_layout_witness :
  String.get 8 (UUID.generateUUID (fun k => Z.of_nat k mod 16)) = Some "-"%char /\
  UUID.is_hex (hex_digit (0 mod 16)) = true.
Proof.
  destruct (generateUUID_layout (fun k => Z.of_nat k mod 16)) as (_ & Hdash & _ & _ & Hhex).
  split; [apply Hdash; by_compute|].
  apply (Hhex 0%nat); [reflexivity|by_compute].
Defined.

End UUIDFacts.

(** ** The cache of the client *)

Section CacheFacts.

Import Cache.

Context {V : Type}.

(** X24. With maps attached under [data] and [timestamps], a value set at
    time [t] with a time to live [ttl] is what [get] returns at every
    time before [t + ttl], and from [t + ttl] on [get] returns [null] and
    drops the entry from both maps.  Without them, as the class builds
    the client, [set], [get] and [clear] all throw a TypeError and store
    nothing. *)
Theorem cache_round_trip (key : string) (v : V) (ttl t t' : Z)
    (d : gmap string V) (ts : gmap string Z) :
  let st := Cache.mkState (Some d) (Some ts) in
  let st1 := Cache.mkState (Some (<[key := v]> d)) (Some (<[key := t + ttl]> ts)) in
  Cache.set key v (Some ttl) t st = (st1, Normal ()) /\
  (t' < t + ttl -> Cache.get key t' st1 = (st1, Normal (Cache.Found v))) /\
  (t + ttl <= t' ->
     Cache.get key t' st1
       = (Cache.mkState (Some (delete key d)) (Some (delete key ts)), Normal Cache.Null)) /\
  (forall now o,
     Cache.set key v o now Cache.as_constructed
       = (Cache.as_constructed, Cache.throw_undefined "set") /\
     Cache.get key now (@Cache.as_constructed V)
       = (Cache.as_constructed, Cache.throw_undefined "get") /\
     Cache.clear (@Cache.as_constructed V)
       = (Cache.as_constructed, Cache.throw_undefined "clear")).
Proof.
  cbv zeta. split; [reflexivity|]. split; [|split].
  - intros Hlt. unfold get. cbn [this_timestamps this_data].
    rewrite !lookup_insert_eq.
    by destruct (Z.ltb_spec t' (t + ttl)); [|lia].
  - intros Hge. unfold get. cbn [this_timestamps this_data].
    rewrite lookup_insert_eq.
    destruct (Z.ltb_spec t' (t + ttl)); [lia|].
    by rewrite !delete_insert_eq.
  - done.
Qed.

End CacheFacts.

Lemma cache_round_trip_witness :
  Cache.get "products" 1500
    (Cache.mkState (Some {["products" := 7%nat]}) (Some {["products" := 2000]}))
  = (Cache.mkState (Some {["products" := 7%nat]}) (Some {["products" := 2000]}),
     Normal (Cache.Found 7%nat)) /\
  Cache.get "products" 2000
    (Cache.mkState (Some {["products" := 7%nat]}) (Some {["products" := 2000]}))
  = (Cache.mkState (Some (delete "products" ∅)) (Some (delete "products" ∅)),
     Normal Cache.Null).
Proof.
  destruct (cache_round_trip "products" 7%nat 1000 1000 1500 ∅ ∅) as (_ & H1 & _).
  destruct (cache_round_trip "products" 7%nat 1000 1000 2000 ∅ ∅) as (_ & _ & H2 & _).
  split; [apply H1; lia|apply H2; lia].
Defined.


(** ** GET with a relative address *)

Section GetFacts.

Import API Get.

Context {U : Type}.
Variable URL_parse : string -> Completion U.
Variable URL_append : string -> string -> U -> U.
Variable URL_toString : U -> string.

(** X25. [get] builds its address with [new URL], which has no base to
    resolve an address that starts with a slash: for every endpoint that
    does not start with http the promise of [get] is rejected with the
    exception of the constructor, [request] is never entered, nothing is
    fetched and nothing is queued. *)
Theorem relative_get_is_rejected (endpoint : string)
    (params : list (string * option string)) (st : API.State) :
  (forall s, String.prefix "/" s = true -> exists e, URL_parse s = Throw e) ->
  String.prefix "http" endpoint = false ->
  API.settled st !! API.next_promise st = None ->
  exists e,
    URL_parse (API.url_of endpoint) = Throw e /\
    let st' := (Get.call_get URL_parse URL_append URL_toString endpoint params st).1 in
    API.settled st' !! API.next_promise st = Some (API.Rejected e) /\
    API.log st' = API.log st ++ [API.OSettle (API.next_promise st) (API.Rejected e)] /\
    API.inflight st' = API.inflight st /\
    API.next_fetch st' = API.next_fetch st /\
    API.requestQueue st' = API.requestQueue st.
Proof.
  intros Hhost Hrel Hfree.
  destruct (Hhost (url_of endpoint)) as [e He].
  { unfold url_of. by rewrite Hrel. }
  exists e. split; [exact He|].
  unfold call_get, get_url. rewrite He. cbn [bindC fst].
  unfold settle_caller. cbn [settled set_next_promise]. rewrite Hfree. cbn.
  by rewrite lookup_insert_eq.
Qed.

End GetFacts.

Lemma relative_get_is_rejected_witness :
  exists e,
    API.settled
      (Get.call_get Get.toy_parse Get.toy_append id "/products" [("page", Some "2")]
         (API.new true None false 0)).1 !! 0%nat = Some (API.Rejected e) /\
    API.next_fetch
      (Get.call_get Get.toy_parse Get.toy_append id "/products" [("page", Some "2")]
         (API.new true None false 0)).1 = 0%nat.
Proof.
  destruct (relative_get_is_rejected Get.toy_parse Get.toy_append id "/products"
              [("page", Some "2")] (API.new true None false 0))
    as (e & _ & Hs & _ & _ & Hf & _).
  - intros s Hs. destruct s as [|c s]; [discriminate|]. cbn [String.prefix] in Hs.
    destruct (Ascii.ascii_dec "/" c) as [<-|]; [|discriminate].
    eexists. reflexivity.
  - reflexivity.
  - reflexivity.
  - exists e. split; [exact Hs|exact Hf].
Defined.

(** ** Throttled functions *)

Section ThrottleFacts.

Import Throttle.









End ThrottleFacts.

(** ** Debounced functions *)

Section DebounceFacts.

Import Debounce.




















End DebounceFacts.

(** ** The cart *)

Section CartFacts.

Import Cart.

Context {P : Type}.
Variable getProductData : string -> option P.

Local Abbreviation Item := (Cart.Item P).
Local Abbreviation State := (Cart.State P).

Lemma cart_notify_items message type (st : State) :
  items (notify message type st).1 = items st.
Proof.
  unfold notify. destruct (Notifications_defined st); [|done].
  by destruct (notifications st).
Qed.


Lemma find_item_Some id (l : list Item) item :
  find_item id l = Some item -> item ∈ l /\ i_id item = id.
Proof.
  intros H. apply List.find_some in H as [Hin Heq].
  split; [by apply list_elem_of_In|by apply String.eqb_eq].
Qed.

Lemma find_item_None id (l : list Item) :
  find_item id l = None -> id ∉ i_id <$> l.
Proof.
  intros H Hin. apply list_elem_of_fmap in Hin as (item & -> & Hin).
  apply list_elem_of_In in Hin.
  pose proof (List.find_none _ _ H item Hin) as Hf. simpl in Hf.
  by rewrite String.eqb_refl in Hf.
Qed.

Lemma ids_set_quantity_of id f (l : list Item) :
  i_id <$> set_quantity_of id f l = i_id <$> l.
Proof.
  induction l as [|item l IH]; [done|]. cbn [set_quantity_of].
  destruct (String.eqb (i_id item) id); [done|]. by rewrite !fmap_cons, IH.
Qed.

Lemma positive_set_quantity_of id f (l : list Item) :
  (forall q, 0 < q -> 0 < f q) ->
  Forall (fun item => 0 < i_quantity item) l ->
  Forall (fun item => 0 < i_quantity item) (set_quantity_of id f l).
Proof.
  intros Hf. induction 1 as [|item l Hq Hl IH]; [constructor|]. cbn [set_quantity_of].
  destruct (String.eqb (i_id item) id).
  - constructor; [cbn [i_quantity]; by apply Hf|done].
  - by constructor.
Qed.






Lemma total_from (l : list Item) : forall a,
  fold_left (fun total item => total + i_quantity item) l a
  = a + fold_left (fun total item => total + i_quantity item) l 0.
Proof.
  induction l as [|x l IH]; intros a; simpl; [lia|].
  rewrite (IH (a + _)), (IH (0 + _)). lia.
Qed.

Lemma total_cons (x : Item) l :
  fold_left (fun total item => total + i_quantity item) (x :: l) 0
  = i_quantity x + fold_left (fun total item => total + i_quantity item) l 0.
Proof. simpl. by rewrite total_from. Qed.





Lemma well_formed_exec op (st : State) :
  adds_positive op -> well_formed st -> well_formed (exec getProductData op st).
Proof.
  intros Hop [Hnd Hpos]. unfold well_formed.
  assert (forall id, well_formed
            (set_items (filter (fun item => i_id item <> id) (items st)) st)) as Hrem.
  { intros id. split; simpl.
    - eapply sublist_NoDup; [exact Hnd|]. apply fmap_sublist, sublist_filter.
    - apply Forall_forall. intros x [_ Hx]%list_elem_of_filter.
      rewrite Forall_forall in Hpos. by apply Hpos. }
  destruct op as [id q|id change|id q|id|]; cbn [exec].
  - unfold addItem. rewrite cart_notify_items.
    assert (0 < default 1 q) as Hq by (destruct q; [exact Hop|simpl; lia]).
    destruct (find_item id (items st)) as [item|] eqn:Hf; simpl.
    + rewrite ids_set_quantity_of. split; [done|].
      apply positive_set_quantity_of; [intros; lia|done].
    + destruct (getProductData id) as [p|]; simpl; [|done]. split.
      * rewrite fmap_app. apply NoDup_app. split; [done|].
        split; [|apply NoDup_singleton]. intros x Hx Hx'.
        apply list_elem_of_singleton in Hx'. simpl in Hx'. subst x.
        by apply find_item_None in Hf.
      * apply Forall_app. split; [done|]. by apply Forall_singleton.
  - unfold updateQuantity. destruct (find_item id (items st)) as [item|]; [|done].
    destruct (Z.ltb_spec 0 (i_quantity item + change)); simpl.
    + rewrite ids_set_quantity_of. split; [done|].
      apply positive_set_quantity_of; [intros; lia|done].
    + unfold removeItem. rewrite cart_notify_items. apply Hrem.
  - unfold setQuantity. destruct (find_item id (items st)) as [item|]; [|done].
    destruct (Z.ltb_spec 0 q); simpl; [|done].
    rewrite ids_set_quantity_of. split; [done|].
    apply positive_set_quantity_of; [intros; lia|done].
  - unfold removeItem. rewrite cart_notify_items. apply Hrem.
  - split; simpl; constructor.
Qed.

(** X28. Whatever the page asks of the cart, no product is ever listed
    twice and every quantity stays positive, as long as [addItem] is
    given positive quantities; the number of items is then positive for a
    cart that is not empty. *)
Theorem cart_stays_well_formed (ops : list Cart.Op) (st : State) :
  Forall Cart.adds_positive ops ->
  Cart.well_formed st ->
  let st' := fold_left (fun st op => Cart.exec getProductData op st) ops st in
  Cart.well_formed st' /\
  (Cart.items st' <> [] -> 0 < Cart.getItemCount st').
Proof.
  intros Hops Hwf. cbv zeta.
  assert (well_formed (fold_left (fun st op => exec getProductData op st) ops st)) as H.
  { revert st Hwf. induction Hops as [|op ops Hop Hops IH]; intros st Hwf; [done|].
    simpl. apply IH. by apply well_formed_exec. }
  split; [exact H|]. destruct H as [_ Hpos]. unfold getItemCount.
  destruct (items _) as [|x l]; [done|]. intros _.
  apply Forall_cons in Hpos as [Hx Hl]. rewrite total_cons.
  assert (0 <= fold_left (fun total item => total + i_quantity item) l 0); [|lia].
  clear Hx. induction Hl as [|y l Hy Hl IH]; [done|]. rewrite total_cons. lia.
Qed.



End CartFacts.

Lemma cart_stays_well_formed_witness :
  let products id := if String.eqb id "1" then Some 8999 else None in
  let st :=
    fold_left (fun st op => Cart.exec products op st)
      [Cart.OAdd "1" (Some 2); Cart.OAdd "1" None; Cart.OUpdate "1" (-1);
       Cart.OAdd "9" (Some 4)]
      (Cart.mkState [] true None) in
  Cart.well_formed st /\ Cart.getItemCount st = 2.
Proof.
  intros products st.
  destruct (cart_stays_well_formed products
              [Cart.OAdd "1" (Some 2); Cart.OAdd "1" None; Cart.OUpdate "1" (-1);
               Cart.OAdd "9" (Some 4)]
              (Cart.mkState [] true None)) as [Hwf _].
  - repeat apply Forall_cons_2; try apply Forall_nil_2; simpl; lia.
  - split; simpl; constructor.
  - split; [exact Hwf|]. vm_compute. reflexivity.
Defined.


